(** * Album visualizer: the now-playing resolution pipeline of [app.py]

    A shallow embedding of the Python module [app.py] (player discovery,
    player polling, the Last.fm cover resolver with its TTL map and its
    memoizing layer, the now-playing resolver and the cover file
    endpoint), followed by the properties of the specification that were
    checked against it.

    Conventions of the embedding.
    - A Python [str] is the Rocq string of its UTF-8 encoding.  Equality,
      concatenation, [in], [split], [startswith] and [endswith] are the
      same on the encoding as on the text, and so is the slice [s[7:]]
      behind the seven ASCII characters of [file://].  The builtins that
      look at characters beyond ASCII are written out for them: [strip]
      and [splitlines] know the blanks and line boundaries of Unicode by
      their encodings, [int] and [float] read the text by code points.
    - Two things depend on the Unicode tables of the interpreter and are
      taken from the world: [str.lower] as a function on texts, and the
      decimal value of a non-ASCII digit.
    - Everything else outside the process is an oracle of [World] too:
      the [playerctl] subprocess, the filesystem test, the configured API
      key and the HTTP endpoint.  The clock reading of [time()] is an
      argument of the functions that read it.
    - Python floats are [pyfloat]: not-a-number, the two infinities, or a
      finite value kept as an exact rational.  Rounding to the nearest
      double is not modelled (it never changes a sign); overflow is.
    - A call that can raise returns an [outcome]; [except] clauses are
      written where the source has them.
    - The module-level mutable objects ([_last_cover_ttl] and the
      [lru_cache] of [_lastfm_cover_cached]) are the fields of
      [CoverState], threaded explicitly, together with three counters
      that only observe the run (lookups, HTTP requests, cache clears). *)

From Stdlib Require Import ZArith QArith Qabs Qpower Ascii String List Bool Lia Lqa.
From stdpp Require Import gmap strings list.

Local Open Scope string_scope.
Local Open Scope list_scope.

(** ** Python string builtins *)

Module PyStr.

Definition code (c : ascii) : N := N_of_ascii c.

(** The program takes [str.lower] from the world.  Two instances of it
    are written out.  [lower_ascii] lowers A to Z and nothing else: it is
    how [float()] reads the words for infinity and not-a-number. *)
Definition lower_ascii_char (c : ascii) : ascii :=
  if ((65 <=? code c) && (code c <=? 90))%N then ascii_of_N (code c + 32) else c.

Fixpoint lower_ascii (s : string) : string :=
  match s with
  | EmptyString => EmptyString
  | String c r => String (lower_ascii_char c) (lower_ascii r)
  end.

(** [lower_latin1] is [str.lower] on a text of characters below U+0100,
    which is all that the scripted worlds at the end of the definitions
    are asked to lower (player names, status words, artists, tracks and
    paths): A to
    Z and the capital letters U+00C0 to U+00DE, the multiplication sign
    U+00D7 apart, move up by 32 and nothing else changes.  In the
    encoding the latter are the byte 195 followed by 128 to 158, and the
    second byte moves. *)
Fixpoint lower_latin1 (s : string) : string :=
  match s with
  | EmptyString => EmptyString
  | String a r =>
      if (code a =? 195)%N then
        match r with
        | String b r' =>
            if ((128 <=? code b) && (code b <=? 158) && negb (code b =? 151))%N
            then String a (String (ascii_of_N (code b + 32)) (lower_latin1 r'))
            else String a (lower_latin1 r)
        | EmptyString => s
        end
      else String (lower_ascii_char a) (lower_latin1 r)
  end.

(** The characters [str.strip()] removes, those of [str.isspace], by the
    bytes of their encodings.  One byte: tab, LF, VT, FF, CR, FS, GS, RS,
    US and the space. *)
Definition blank1 (a : ascii) : bool :=
  (((9 <=? code a) && (code a <=? 13)) || ((28 <=? code a) && (code a <=? 32)))%N.

(** Two bytes: U+0085 and U+00A0. *)
Definition blank2 (a b : ascii) : bool :=
  ((code a =? 194) && ((code b =? 133) || (code b =? 160)))%N.

(** Three bytes: U+1680, U+2000 to U+200A, U+2028, U+2029, U+202F,
    U+205F and U+3000. *)
Definition blank3 (a b c : ascii) : bool :=
  (((code a =? 225) && (code b =? 154) && (code c =? 128))
   || ((code a =? 226) && (code b =? 128)
       && (((128 <=? code c) && (code c <=? 138))
           || (code c =? 168) || (code c =? 169) || (code c =? 175)))
   || ((code a =? 226) && (code b =? 129) && (code c =? 159))
   || ((code a =? 227) && (code b =? 128) && (code c =? 128)))%N.

(** Removal, at the front, of the characters whose encodings the three
    tests recognise. *)
Fixpoint lstrip_with (p1 : ascii -> bool) (p2 : ascii -> ascii -> bool)
                     (p3 : ascii -> ascii -> ascii -> bool) (s : string) : string :=
  match s with
  | String a r1 =>
      if p1 a then lstrip_with p1 p2 p3 r1
      else
        match r1 with
        | String b r2 =>
            if p2 a b then lstrip_with p1 p2 p3 r2
            else
              match r2 with
              | String c r3 => if p3 a b c then lstrip_with p1 p2 p3 r3 else s
              | EmptyString => s
              end
        | EmptyString => s
        end
  | EmptyString => s
  end.

Definition rev (s : string) : string :=
  string_of_list_ascii (List.rev (list_ascii_of_string s)).

(** [str.lstrip()], [str.rstrip()] and [str.strip()] *)
Definition lstrip (s : string) : string := lstrip_with blank1 blank2 blank3 s.

Definition rstrip (s : string) : string :=
  rev (lstrip_with blank1 (fun a b => blank2 b a) (fun a b c => blank3 c b a) (rev s)).

Definition strip (s : string) : string := rstrip (lstrip s).

(** Blanks that [int()] and [float()] skip around a literal once the
    text is brought to ASCII: tab, LF, VT, FF, CR and the space. *)
Definition isspace_c (c : ascii) : bool :=
  (((9 <=? code c) && (code c <=? 13)) || (code c =? 32))%N.

Definition is_empty (s : string) : bool :=
  match s with EmptyString => true | String _ _ => false end.

Fixpoint lstrip_by (sp : ascii -> bool) (s : string) : string :=
  match s with
  | EmptyString => EmptyString
  | String c r => if sp c then lstrip_by sp r else s
  end.

Fixpoint rstrip_by (sp : ascii -> bool) (s : string) : string :=
  match s with
  | EmptyString => EmptyString
  | String c r =>
      let r' := rstrip_by sp r in
      if sp c && is_empty r' then EmptyString else String c r'
  end.

Definition strip_by (sp : ascii -> bool) (s : string) : string :=
  rstrip_by sp (lstrip_by sp s).

(** [s.startswith(p)] *)
Fixpoint startswith (p s : string) : bool :=
  match p, s with
  | EmptyString, _ => true
  | String a p', String b s' => if Ascii.eqb a b then startswith p' s' else false
  | String _ _, EmptyString => false
  end.

(** [needle in hay] for two strings. *)
Fixpoint contains (needle hay : string) : bool :=
  startswith needle hay
  || match hay with
     | EmptyString => false
     | String _ r => contains needle r
     end.

(** [s[n:]], in bytes: used behind a prefix of [n] ASCII characters. *)
Fixpoint drop (n : nat) (s : string) : string :=
  match n, s with
  | O, _ => s
  | S n', String _ r => drop n' r
  | S _, EmptyString => EmptyString
  end.

(** [s.split(sep)] for a one-character ASCII separator; never empty. *)
Fixpoint split (sep : ascii) (s : string) : list string :=
  match s with
  | EmptyString => [EmptyString]
  | String c r =>
      if Ascii.eqb c sep then EmptyString :: split sep r
      else match split sep r with
           | h :: t => String c h :: t
           | [] => [String c EmptyString]
           end
  end.

(** One-byte line boundaries of [str.splitlines()]: LF, VT, FF, CR, FS,
    GS, RS. *)
Definition is_linebreak (c : ascii) : bool :=
  (((10 <=? code c) && (code c <=? 13)) || ((28 <=? code c) && (code c <=? 30)))%N.

(** [str.splitlines()]: CR LF is taken as one boundary; the boundaries
    beyond ASCII are U+0085 (bytes 194 133), U+2028 and U+2029 (bytes
    226 128 168 and 226 128 169). *)
Fixpoint splitlines_from (cur : string) (s : string) : list string :=
  match s with
  | EmptyString => if is_empty cur then [] else [cur]
  | String c r =>
      if (code c =? 13)%N then
        match r with
        | String d r' =>
            if (code d =? 10)%N then cur :: splitlines_from EmptyString r'
            else cur :: splitlines_from EmptyString r
        | EmptyString => cur :: splitlines_from EmptyString r
        end
      else if is_linebreak c then cur :: splitlines_from EmptyString r
      else if (code c =? 194)%N then
        match r with
        | String d r' =>
            if (code d =? 133)%N then cur :: splitlines_from EmptyString r'
            else splitlines_from (cur +:+ String c EmptyString) r
        | EmptyString => splitlines_from (cur +:+ String c EmptyString) r
        end
      else if (code c =? 226)%N then
        match r with
        | String d (String e r'') =>
            if ((code d =? 128) && ((code e =? 168) || (code e =? 169)))%N
            then cur :: splitlines_from EmptyString r''
            else splitlines_from (cur +:+ String c EmptyString) r
        | _ => splitlines_from (cur +:+ String c EmptyString) r
        end
      else splitlines_from (cur +:+ String c EmptyString) r
  end.

Definition splitlines (s : string) : list string := splitlines_from EmptyString s.

(** [x in xs] for a list of strings. *)
Definition mem (x : string) (xs : list string) : bool :=
  existsb (String.eqb x) xs.

End PyStr.

(** ** Python numbers and exceptions *)

Inductive pyexn : Set :=
  ValueError | OverflowError | TypeError | KeyError | AttributeError.

Inductive outcome (A : Type) : Type :=
| Returns (a : A)
| Raises (e : pyexn).
Arguments Returns {A} a.
Arguments Raises {A} e.

(** Sequencing: a raised exception skips the rest ([x ← m; k]). *)
#[global] Instance outcome_bind : MBind outcome :=
  fun A B (k : A -> outcome B) (m : outcome A) =>
    match m with
    | Returns a => k a
    | Raises e => Raises e
    end.

(** [try: body  except ValueError: handler] *)
Definition except_ValueError {A : Type} (body : outcome A) (handler : A) : outcome A :=
  match body with
  | Raises ValueError => Returns handler
  | other => other
  end.

Inductive pyfloat : Set :=
| FNan
| FInf (negative : bool)
| FFin (q : Q).

Module PyNum.
Import PyStr.

(** Magnitudes from [2^1024 - 2^970] on round to an infinite double. *)
Definition DBL_OVERFLOW : Q := inject_Z (2 ^ 1024 - 2 ^ 970).

Definition overflows (q : Q) : bool := Qle_bool DBL_OVERFLOW (Qabs q).

Definition digit_val (c : ascii) : option N :=
  if ((48 <=? code c) && (code c <=? 57))%N then Some (code c - 48)%N else None.

(** [digit (["_"] digit)*], as the list of its digits. *)
Fixpoint digitpart (s : string) : option (list N) :=
  match s with
  | EmptyString => None
  | String c r =>
      match digit_val c with
      | None => None
      | Some d =>
          match r with
          | EmptyString => Some [d]
          | String c' r' =>
              if Ascii.eqb c' "_" then option_map (cons d) (digitpart r')
              else option_map (cons d) (digitpart r)
          end
      end
  end.

Definition digits_value (ds : list N) : N :=
  fold_left (fun acc d => 10 * acc + d)%N ds 0%N.

(** An optional sign in front of a literal: [(negative, rest)]. *)
Definition take_sign (s : string) : bool * string :=
  match s with
  | String c r =>
      if Ascii.eqb c "-" then (true, r)
      else if Ascii.eqb c "+" then (false, r)
      else (false, s)
  | EmptyString => (false, s)
  end.

Definition apply_sign (negative : bool) (n : N) : Z :=
  if negative then (- Z.of_N n)%Z else Z.of_N n.

(** Default of [sys.get_int_max_str_digits()]. *)
Definition int_max_str_digits : nat := 4300.

(** The code points of a text, read off its UTF-8 encoding; bytes that
    are no encoding give [NOT_A_CHAR]. *)
Definition NOT_A_CHAR : N := 1114112.

(** A byte at the start of a character: the code point if it is ASCII,
    else the number of bytes to follow and the bits it carries. *)
Definition lead (n : N) : list N * nat * N :=
  if (n <? 128)%N then ([n], O, 0%N)
  else if ((192 <=? n) && (n <? 224))%N then ([], 1%nat, (n - 192)%N)
  else if ((224 <=? n) && (n <? 240))%N then ([], 2%nat, (n - 224)%N)
  else if ((240 <=? n) && (n <? 248))%N then ([], 3%nat, (n - 240)%N)
  else ([NOT_A_CHAR], O, 0%N).

Fixpoint codepoints_from (pending : nat) (acc : N) (s : string) : list N :=
  match s with
  | EmptyString =>
      match pending with
      | O => []
      | S _ => [NOT_A_CHAR]
      end
  | String b r =>
      let n := code b in
      match pending with
      | S k =>
          if ((128 <=? n) && (n <? 192))%N then
            let acc := (acc * 64 + (n - 128))%N in
            match k with
            | O => acc :: codepoints_from O 0%N r
            | S _ => codepoints_from k acc r
            end
          else
            let '(out, pending', acc') := lead n in
            NOT_A_CHAR :: out ++ codepoints_from pending' acc' r
      | O =>
          let '(out, pending', acc') := lead n in
          out ++ codepoints_from pending' acc' r
      end
  end.

Definition codepoints (s : string) : list N := codepoints_from O 0%N s.

(** [len(s)] *)
Definition char_count (s : string) : nat := length (codepoints s).

(** [str.isspace] beyond ASCII. *)
Definition unicode_isspace (cp : N) : bool :=
  ((cp =? 133) || (cp =? 160) || (cp =? 5760)
   || ((8192 <=? cp) && (cp <=? 8202))
   || (cp =? 8232) || (cp =? 8233) || (cp =? 8239) || (cp =? 8287)
   || (cp =? 12288))%N.

(** What [int()] and [float()] make of a character before they parse:
    an ASCII character is kept, a blank beyond ASCII becomes a space, a
    decimal digit beyond ASCII the ASCII digit of its value, anything
    else a question mark.  [todecimal] is the table of decimal values of
    the interpreter's Unicode version. *)
Definition to_ascii_char (todecimal : N -> option N) (cp : N) : ascii :=
  if (cp <? 128)%N then ascii_of_N cp
  else if unicode_isspace cp then " "%char
  else match todecimal cp with
       | Some d => if (d <=? 9)%N then ascii_of_N (48 + d) else "?"%char
       | None => "?"%char
       end.

Definition to_ascii (todecimal : N -> option N) (s : string) : string :=
  string_of_list_ascii (map (to_ascii_char todecimal) (codepoints s)).

(** The decimal digits beyond ASCII in Unicode 14.0: each of these code
    points is a digit zero, followed by the digits one to nine. *)
Definition DECIMAL_ZEROS : list N :=
  [1632; 1776; 1984; 2406; 2534; 2662; 2790; 2918; 3046; 3174; 3302; 3430;
   3558; 3664; 3792; 3872; 4160; 4240; 6112; 6160; 6470; 6608; 6784; 6800;
   6992; 7088; 7232; 7248; 42528; 43216; 43264; 43472; 43504; 43600; 44016;
   65296; 66720; 68912; 69734; 69872; 69942; 70096; 70384; 70736; 70864;
   71248; 71360; 71472; 71904; 72016; 72784; 73040; 73120; 92768; 92864;
   93008; 120782; 120792; 120802; 120812; 120822; 123200; 123632; 125264;
   130032]%N.

Definition unicode14_decimal (cp : N) : option N :=
  match List.find (fun z => (z <=? cp) && (cp <? z + 10))%N DECIMAL_ZEROS with
  | Some z => Some (cp - z)%N
  | None => None
  end.

(** [int(s)] *)
Definition py_int (todecimal : N -> option N) (s : string) : outcome Z :=
  let '(negative, body) := take_sign (strip_by isspace_c (to_ascii todecimal s)) in
  match digitpart body with
  | None => Raises ValueError
  | Some ds =>
      if (int_max_str_digits <? length ds)%nat then Raises ValueError
      else Returns (apply_sign negative (digits_value ds))
  end.

(** [n / d] on two ints, [d] positive: true division. *)
Definition int_truediv (n : Z) (d : positive) : outcome pyfloat :=
  if overflows (n # d) then Raises OverflowError else Returns (FFin (n # d)).

(** Cut a string at the first character satisfying [p]. *)
Fixpoint break_at (p : ascii -> bool) (s : string) : string * option string :=
  match s with
  | EmptyString => (EmptyString, None)
  | String c r =>
      if p c then (EmptyString, Some r)
      else let '(a, b) := break_at p r in (String c a, b)
  end.

Definition optional_digitpart (s : string) : option (list N) :=
  if is_empty s then Some [] else digitpart s.

(** [[digitpart] "." digitpart | digitpart ["."]]: the digits of the
    mantissa and the number of them behind the point. *)
Definition mantissa (s : string) : option (list N * nat) :=
  match break_at (Ascii.eqb ".") s with
  | (ip, None) => option_map (fun ds => (ds, O)) (digitpart ip)
  | (ip, Some fp) =>
      if is_empty ip && is_empty fp then None
      else match optional_digitpart ip, optional_digitpart fp with
           | Some di, Some df => Some (di ++ df, length df)
           | _, _ => None
           end
  end.

(** [("e" | "E") [sign] digitpart], the part behind the letter. *)
Definition exponent (s : string) : option Z :=
  let '(negative, body) := take_sign s in
  option_map (fun ds => apply_sign negative (digits_value ds)) (digitpart body).

Definition is_e (c : ascii) : bool := Ascii.eqb c "e" || Ascii.eqb c "E".

Definition magnitude (s : string) : option Q :=
  let '(m, e) := break_at is_e s in
  match mantissa m, match e with None => Some 0%Z | Some x => exponent x end with
  | Some (ds, nfrac), Some ex =>
      Some (inject_Z (Z.of_N (digits_value ds)) * (10 # 1) ^ (ex - Z.of_nat nfrac))%Q
  | _, _ => None
  end.

Definition signed (negative : bool) (q : Q) : Q := if negative then (- q)%Q else q.

(** [float(s)]; the words for infinity and not-a-number are matched
    without regard to the case of their ASCII letters. *)
Definition py_float (todecimal : N -> option N) (s : string) : outcome pyfloat :=
  let '(negative, body) := take_sign (strip_by isspace_c (to_ascii todecimal s)) in
  let word := lower_ascii body in
  if String.eqb word "inf" || String.eqb word "infinity" then Returns (FInf negative)
  else if String.eqb word "nan" then Returns FNan
  else match magnitude body with
       | None => Raises ValueError
       | Some q => if overflows q then Returns (FInf negative)
                   else Returns (FFin (signed negative q))
       end.

End PyNum.

Import PyStr PyNum.

(** ** JSON values as [json.loads] builds them

    A [dict] is listed by its items, a key being read at its first
    binding; Python's [None] is [JNull]. *)

#[warnings="-register-all"]
Inductive json : Type :=
| JNull
| JBool (b : bool)
| JInt (n : Z)
| JFloat (f : pyfloat)
| JStr (s : string)
| JArr (items : list json)
| JObj (fields : list (string * json)).

Module PyDyn.

(** Truth value of an object, as [if x] and [x or y] test it. *)
Definition truthy (v : json) : bool :=
  match v with
  | JNull => false
  | JBool b => b
  | JInt n => negb (n =? 0)%Z
  | JFloat (FFin q) => negb (Qeq_bool q 0)
  | JFloat _ => true
  | JStr s => negb (is_empty s)
  | JArr l => match l with [] => false | _ => true end
  | JObj f => match f with [] => false | _ => true end
  end.

Fixpoint dict_get (f : list (string * json)) (k : string) : option json :=
  match f with
  | [] => None
  | (k', v) :: r => if String.eqb k' k then Some v else dict_get r k
  end.

(** [v == s] for a string [s]. *)
Definition eq_str (v : json) (s : string) : bool :=
  match v with
  | JStr t => String.eqb t s
  | _ => false
  end.

(** [k in v] *)
Definition py_in (k : string) (v : json) : outcome bool :=
  match v with
  | JObj f => Returns (match dict_get f k with Some _ => true | None => false end)
  | JArr l => Returns (existsb (fun x => eq_str x k) l)
  | JStr s => Returns (contains k s)
  | _ => Raises TypeError
  end.

(** [v[k]] for a string [k]. *)
Definition py_getitem (v : json) (k : string) : outcome json :=
  match v with
  | JObj f => match dict_get f k with
              | Some x => Returns x
              | None => Raises KeyError
              end
  | _ => Raises TypeError
  end.

(** [v.get(k)] *)
Definition py_get (v : json) (k : string) : outcome json :=
  match v with
  | JObj f => Returns (match dict_get f k with Some x => x | None => JNull end)
  | _ => Raises AttributeError
  end.

(** The characters of a text, one string each: a byte of the encoding
    that continues a character (128 to 191) stays with the byte in
    front of it.  The first component holds the continuation bytes at
    the very front, which belong to no character. *)
Fixpoint chars_from (s : string) : string * list string :=
  match s with
  | EmptyString => (EmptyString, [])
  | String c r =>
      let '(k, l) := chars_from r in
      if ((128 <=? code c) && (code c <=? 191))%N then (String c k, l)
      else (EmptyString, String c k :: l)
  end.

Definition chars (s : string) : list json :=
  let '(k, l) := chars_from s in
  map JStr (if is_empty k then l else k :: l).

(** The items [for x in v] walks through. *)
Definition py_iter (v : json) : outcome (list json) :=
  match v with
  | JArr l => Returns l
  | JObj f => Returns (map (fun kv => JStr (fst kv)) f)
  | JStr s => Returns (chars s)
  | _ => Raises TypeError
  end.

(** [x or None] *)
Definition or_none (v : json) : option json :=
  if truthy v then Some v else None.

(** [r or ""] for the result of a cover lookup. *)
Definition or_empty (r : option json) : json :=
  match r with
  | Some v => if truthy v then v else JStr EmptyString
  | None => JStr EmptyString
  end.

End PyDyn.

Import PyDyn.

(** ** The world outside the process *)

Record World : Type := {
  (** the text [out.decode("utf-8")] of the stdout of [playerctl] run
      with the given arguments, [None] when [check_output] or the
      decoding raises (exit status, timeout, missing binary, bytes that
      are no UTF-8) *)
  playerctl : list string -> option string;
  (** [str.lower], by the case tables of the interpreter *)
  str_lower : string -> string;
  (** the decimal value of a digit beyond ASCII, by its Unicode tables *)
  todecimal : N -> option N;
  (** [os.path.exists] *)
  path_exists : string -> bool;
  (** [LASTFM_API_KEY], read once at start-up *)
  LASTFM_API_KEY : string;
  (** the parsed body of the [n]-th [track.getInfo] request for an artist
      and a track, [None] when [requests.get] or [r.json()] raises *)
  http_get : nat -> string -> string -> option json
}.

Definition POLL_PLAYERS : list string :=
  ["chromium"; "chrome"; "google-chrome"; "brave"; "vivaldi"; "firefox"; "spotify"].

(** [run(cmd)], the command line given as [shlex.split] leaves it. *)
Definition run (w : World) (argv : list string) : string :=
  match playerctl w argv with
  | Some out => strip out
  | None => EmptyString
  end.

(** ** Player discovery *)

(** [[p for name in POLL_PLAYERS for p in players if name in p.lower()]] *)
Definition ordered_players (w : World) (players : list string) : list string :=
  flat_map (fun name => List.filter (fun p => contains name (str_lower w p)) players)
           POLL_PLAYERS.

(** [[p for p in players if p not in ordered]] *)
Definition rest_players (players ordered : list string) : list string :=
  List.filter (fun p => negb (mem p ordered)) players.

(** Lines 30 to 33 of [list_players], on the lines of the listing. *)
Definition order_players (w : World) (players : list string) : list string :=
  let ordered := ordered_players w players in
  let rest := rest_players players ordered in
  ordered ++ rest.

Definition list_players (w : World) : list string :=
  let out := run w ["playerctl"; "-l"] in
  if is_empty out then [] else order_players w (splitlines out).

(** ** Player poller *)

Definition player_status (w : World) (player : string) : string :=
  run w ["playerctl"; "-p"; player; "status"].

Record Meta : Type := {
  title : string;
  artist : string;
  album : string;
  artUrl : string;
  player : string;
  position : pyfloat;
  length_seconds : pyfloat
}.

Definition fmt : string :=
  "{{title}}|{{artist}}|{{album}}|{{mpris:artUrl}}|{{mpris:length}}".

(** [float(position_raw) if position_raw else 0] under its [try]. *)
Definition parse_position (w : World) (position_raw : string) : outcome pyfloat :=
  except_ValueError
    (if is_empty position_raw then Returns (FFin 0)
     else py_float (todecimal w) position_raw)
    (FFin 0).

(** [int(length) / 1000000 if length else 0] under its [try]. *)
Definition parse_length (w : World) (length : string) : outcome pyfloat :=
  except_ValueError
    (if is_empty length then Returns (FFin 0)
     else n ← py_int (todecimal w) length; int_truediv n 1000000)
    (FFin 0).

(** [player_metadata]; the empty dict is [None]. *)
Definition player_metadata (w : World) (p : string) : outcome (option Meta) :=
  let raw := run w ["playerctl"; "-p"; p; "metadata"; "-f"; fmt] in
  if is_empty raw || negb (contains "|" raw) then Returns None
  else
    match take 5 (split "|" raw ++ [""; ""; ""; ""; ""]) with
    | [title; artist; album; art; length] =>
        let position_raw := run w ["playerctl"; "-p"; p; "position"] in
        position ← parse_position w position_raw;
        length_seconds ← parse_length w length;
        Returns (Some {| title := strip title;
                         artist := strip artist;
                         album := strip album;
                         artUrl := strip art;
                         player := p;
                         position := position;
                         length_seconds := length_seconds |})
    | _ => Raises ValueError
    end.

(** ** Cover resolver *)

(** The module-level state of the resolver. *)
Record CoverState : Type := {
  (** [_last_cover_ttl]: key to expiry *)
  ttl : gmap string Q;
  (** entries of the [lru_cache], most recently used first *)
  memo : list ((string * string) * option json);
  (** calls of [_lastfm_cover] so far *)
  lookups : nat;
  (** HTTP requests sent so far *)
  requests : nat;
  (** calls of [cache_clear] so far *)
  clears : nat
}.

Definition init_state : CoverState :=
  {| ttl := ∅; memo := []; lookups := 0; requests := 0; clears := 0 |}.

(** The walk [for img in images] for one [size]: [Some r] when the
    function returns [r] from inside the loop. *)
Fixpoint scan_size (size : string) (images : list json) : outcome (option (option json)) :=
  match images with
  | [] => Returns None
  | img :: more =>
      sz ← py_get img "size";
      hit ← (if eq_str sz size then t ← py_get img "#text"; Returns (truthy t)
             else Returns false);
      if hit : bool then t ← py_getitem img "#text"; Returns (Some (or_none t))
      else scan_size size more
  end.

Fixpoint scan_sizes (sizes : list string) (images : list json) : outcome (option (option json)) :=
  match sizes with
  | [] => Returns None
  | size :: more =>
      r ← scan_size size images;
      match r with
      | Some ret => Returns (Some ret)
      | None => scan_sizes more images
      end
  end.

(** The fallback walk: first entry with a url. *)
Fixpoint first_with_url (images : list json) : outcome (option json) :=
  match images with
  | [] => Returns None
  | img :: more =>
      t ← py_get img "#text";
      if truthy t then v ← py_getitem img "#text"; Returns (Some v)
      else first_with_url more
  end.

(** Lines 103 to 108: the image list of the response, [JNull] if none. *)
Definition find_images (data : json) : outcome json :=
  has_track ← py_in "track" data;
  if has_track : bool then
    track ← py_getitem data "track";
    has_album ← py_in "album" track;
    album_image ← (if has_album : bool then album ← py_getitem track "album"; py_in "image" album
                   else Returns false);
    if album_image : bool then album ← py_getitem track "album"; py_getitem album "image"
    else
      has_image ← py_in "image" track;
      if has_image : bool then py_getitem track "image" else Returns JNull
  else Returns JNull.

(** Lines 101 to 120, on the parsed response. *)
Definition select_image (data : json) : outcome (option json) :=
  images ← find_images data;
  if truthy images then
    items ← py_iter images;
    r ← scan_sizes ["extralarge"; "mega"; "large"; "medium"] items;
    match r with
    | Some ret => Returns ret
    | None => first_with_url items
    end
  else Returns None.

Definition count_request (st : CoverState) : CoverState :=
  {| ttl := ttl st; memo := memo st; lookups := lookups st;
     requests := S (requests st); clears := clears st |}.

Definition count_lookup (st : CoverState) : CoverState :=
  {| ttl := ttl st; memo := memo st; lookups := S (lookups st);
     requests := requests st; clears := clears st |}.

Definition set_memo (m : list ((string * string) * option json)) (st : CoverState) : CoverState :=
  {| ttl := ttl st; memo := m; lookups := lookups st;
     requests := requests st; clears := clears st |}.

(** [_lastfm_cover]; any exception of the body ends in [None]. *)
Definition _lastfm_cover (w : World) (artist track : string) (st : CoverState)
  : option json * CoverState :=
  let st := count_lookup st in
  if is_empty (LASTFM_API_KEY w) then (None, st)
  else
    let response := http_get w (requests st) artist track in
    let st := count_request st in
    match response with
    | None => (None, st)
    | Some data =>
        match select_image data with
        | Returns r => (r, st)
        | Raises _ => (None, st)
        end
    end.

Definition maxsize : nat := 256.

Definition same_args (k k' : string * string) : bool :=
  String.eqb (fst k) (fst k') && String.eqb (snd k) (snd k').

Fixpoint memo_find (k : string * string) (m : list ((string * string) * option json))
  : option (option json) :=
  match m with
  | [] => None
  | (k', v) :: r => if same_args k' k then Some v else memo_find k r
  end.

Definition memo_remove (k : string * string) (m : list ((string * string) * option json))
  : list ((string * string) * option json) :=
  List.filter (fun e => negb (same_args (fst e) k)) m.

(** [_lastfm_cover_cached]: the [lru_cache(maxsize=256)] wrapper.  A hit
    moves the entry to the front; a miss calls the function, stores the
    result in front and drops what falls behind [maxsize]. *)
Definition _lastfm_cover_cached (w : World) (artist track : string) (st : CoverState)
  : option json * CoverState :=
  let k := (artist, track) in
  match memo_find k (memo st) with
  | Some v => (v, set_memo ((k, v) :: memo_remove k (memo st)) st)
  | None =>
      let '(v, st) := _lastfm_cover w artist track st in
      (v, set_memo (take maxsize ((k, v) :: memo st)) st)
  end.

Definition cache_key (w : World) (artist track : string) : string :=
  str_lower w artist +:+ "|" +:+ str_lower w track.

(** [now > exp] *)
Definition past (now exp : Q) : bool := negb (Qle_bool now exp).

(** [_lastfm_cover_cached.cache_clear()] and the new expiry. *)
Definition invalidate (key : string) (now : Q) (st : CoverState) : CoverState :=
  {| ttl := <[key := (now + 3600)%Q]> (ttl st); memo := [];
     lookups := lookups st; requests := requests st; clears := S (clears st) |}.

(** [lastfm_cover], [now] being what [time()] reads. *)
Definition lastfm_cover (w : World) (artist track : string) (now : Q) (st : CoverState)
  : option json * CoverState :=
  let key := cache_key w artist track in
  let exp := default 0%Q (ttl st !! key) in
  let st := if past now exp then invalidate key now st else st in
  _lastfm_cover_cached w artist track st.

(** A run of calls of [lastfm_cover], each with its clock reading. *)
Fixpoint lastfm_calls (w : World) (calls : list (string * string * Q)) (st : CoverState)
  : list (option json) * CoverState :=
  match calls with
  | [] => ([], st)
  | (a, t, now) :: more =>
      let '(r, st) := lastfm_cover w a t now st in
      let '(rs, st) := lastfm_calls w more st in
      (r :: rs, st)
  end.

(** ** Now-playing resolver *)

Inductive NowPlaying : Type :=
| Stopped
| Playing (title artist album : string) (cover : json) (source : string)
          (position length : pyfloat).

(** Lines 136 to 144: the cover for the selected player's metadata. *)
Definition resolve_cover (w : World) (now : Q) (title artist cover : string) (st : CoverState)
  : json * CoverState :=
  if is_empty cover && negb (is_empty title) && negb (is_empty artist) then
    let '(r, st) := lastfm_cover w artist title now st in (or_empty r, st)
  else if negb (is_empty cover) && startswith "file://" cover then
    let file_path := drop 7 cover in
    if negb (path_exists w file_path) && negb (is_empty title) && negb (is_empty artist) then
      let '(r, st) := lastfm_cover w artist title now st in (or_empty r, st)
    else (JStr cover, st)
  else (JStr cover, st).

(** The loop of [get_now_playing] over the players still to poll. *)
Fixpoint poll (w : World) (now : Q) (players : list string) (st : CoverState)
  : outcome NowPlaying * CoverState :=
  match players with
  | [] => (Returns Stopped, st)
  | p :: more =>
      let status := str_lower w (player_status w p) in
      if String.eqb status "playing" then
        match player_metadata w p with
        | Raises e => (Raises e, st)
        | Returns None => poll w now more st
        | Returns (Some meta) =>
            let '(cover, st) := resolve_cover w now (title meta) (artist meta) (artUrl meta) st in
            (Returns (Playing (title meta) (artist meta) (album meta) cover
                              (if is_empty (player meta) then p else player meta)
                              (position meta) (length_seconds meta)), st)
        end
      else poll w now more st
  end.

Definition get_now_playing (w : World) (now : Q) (st : CoverState)
  : outcome NowPlaying * CoverState :=
  poll w now (list_players w) st.

(** ** Scripted worlds, for concrete runs *)

(** A [playerctl] that prints a fixed listing and answers the three
    per-player queries by the given tables. *)
Definition scripted (listing : string) (status metadata position : string -> string)
                    (argv : list string) : option string :=
  match argv with
  | [_; "-l"] => Some listing
  | [_; _; p; "status"] => Some (status p)
  | [_; _; p; "position"] => Some (position p)
  | [_; _; p; "metadata"; _; _] => Some (metadata p)
  | _ => None
  end.

(** One player [p], playing, with the given metadata and position lines;
    no file exists, no API key is configured. *)
Definition solo_world (p metadata position : string) : World :=
  {| playerctl := scripted p (fun _ => "Playing") (fun _ => metadata) (fun _ => position);
     path_exists := fun _ => false;
     str_lower := lower_latin1;
     todecimal := unicode14_decimal;
     LASTFM_API_KEY := "";
     http_get := fun _ _ _ => None |}.

Definition zeros (n : nat) : string := string_of_list_ascii (repeat "0"%char n).

(** A metadata line whose length field is the integer [10^400]. *)
Definition huge_length_line : string := "t|a|b|c|1" +:+ zeros 400.

(** The no-break space U+00A0, a blank of [str.isspace]. *)
Definition NBSP : string := String "194" (String "160" "").

(** ARABIC-INDIC DIGIT ZERO and ONE, U+0660 and U+0661. *)
Definition ARABIC_ZERO : string := String "217" (String "160" "").
Definition ARABIC_ONE : string := String "217" (String "161" "").

Fixpoint copies (n : nat) (s : string) : string :=
  match n with
  | O => EmptyString
  | S n' => s +:+ copies n' s
  end.

(** The same line with the digits of [10^400] in Arabic-Indic. *)
Definition arabic_length_line : string :=
  "t|a|b|c|" +:+ ARABIC_ONE +:+ copies 400 ARABIC_ZERO.

(** A key is configured and every request is answered by a track-level
    image list with one large image, whose url tells the request number
    apart. *)
Definition numbered_url (n : nat) : string := "http://img/" +:+ zeros n.

Definition answering_world : World :=
  {| playerctl := fun _ => None;
     path_exists := fun _ => false;
     str_lower := lower_latin1;
     todecimal := unicode14_decimal;
     LASTFM_API_KEY := "key";
     http_get := fun n _ _ =>
       Some (JObj [("track",
                    JObj [("image",
                           JArr [JObj [("#text", JStr (numbered_url n));
                                       ("size", JStr "large")]])])]) |}.

(** The player reports a local cover file that is not on disk; a key is
    configured and the catalog answers as in [answering_world]. *)
Definition missing_file_world : World :=
  {| playerctl := scripted "spotify" (fun _ => "Playing")
                    (fun _ => "A|B||file:///tmp/missing.jpg|") (fun _ => "");
     path_exists := fun _ => false;
     str_lower := lower_latin1;
     todecimal := unicode14_decimal;
     LASTFM_API_KEY := "key";
     http_get := http_get answering_world |}.


(** Two players, the second one playing a track without cover; the
    catalog knows a cover for artist B and track A. *)
Definition two_players_world : World :=
  {| playerctl :=
       scripted ("firefox.instance1" +:+ String "010"%char "spotify.instance2")
                (fun p => if String.eqb p "spotify.instance2" then "Playing" else "Paused")
                (fun _ => "A|B|||") (fun _ => "");
     path_exists := fun _ => false;
     str_lower := lower_latin1;
     todecimal := unicode14_decimal;
     LASTFM_API_KEY := "key";
     http_get := fun _ artist track =>
       if String.eqb artist "B" && String.eqb track "A" then
         Some (JObj [("track",
                      JObj [("image",
                             JArr [JObj [("#text", JStr "http://img/x.jpg");
                                         ("size", JStr "large")]])])])
       else None |}.

(** The [bits]-letter spellings of a run of the letter t, upper or lower
    case by the binary digits of [n]. *)
Fixpoint cased (bits n : nat) : string :=
  match bits with
  | O => EmptyString
  | S b => String (if Nat.odd n then "T" else "t")%char (cased b (Nat.div2 n))
  end.

(** ** The catalog response as the specification describes it

    [{track: {album: {image: [...]}}}] or [{track: {image: [...]}}], each
    image entry [{"#text": url, "size": name}]; further members of the
    objects are carried along in the [_other] fields. *)












(** The selection in the words of the specification. *)









(** ** Readings of the raw numbers *)

(** [0 <= f] on a float. *)
Definition nonnegb (f : pyfloat) : bool :=
  match f with
  | FNan => false
  | FInf negative => negb negative
  | FFin q => Qle_bool 0 q
  end.

(** A minus sign leads the literal as [int()] and [float()] read it,
    blanks apart. *)
Definition leading_minus (w : World) (s : string) : bool :=
  fst (take_sign (strip_by isspace_c (to_ascii (todecimal w) s))).

(** The fifth field of a metadata line. *)
Definition length_field (raw : string) : string :=
  nth 4 (split "|" raw ++ [""; ""; ""; ""; ""]) "".

Definition metadata_line (w : World) (p : string) : string :=
  run w ["playerctl"; "-p"; p; "metadata"; "-f"; fmt].

Definition position_line (w : World) (p : string) : string :=
  run w ["playerctl"; "-p"; p; "position"].

(** A player the resolver stops at: its status reads playing, whatever
    the case, and its metadata is not empty. *)
Definition is_playing (w : World) (p : string) : bool :=
  String.eqb (str_lower w (player_status w p)) "playing".

(** A player the loop passes over: not playing, or playing with empty
    metadata. *)
Definition skipped (w : World) (p : string) : Prop :=
  is_playing w p = false \/ player_metadata w p = Returns None.

(** [name] is a preference name the identifier [p] contains. *)
Definition matches (w : World) (name p : string) : bool :=
  contains name (str_lower w p).

(** The number of preference names [p] contains. *)
Definition hits (w : World) (p : string) : nat :=
  length (List.filter (fun name => matches w name p) POLL_PLAYERS).

(** The text starts with a character that one of the three tests
    recognises. *)
Definition headed (p1 : ascii -> bool) (p2 : ascii -> ascii -> bool)
                  (p3 : ascii -> ascii -> ascii -> bool) (s : string) : bool :=
  match s with
  | String a r1 =>
      p1 a
      || match r1 with
         | String b r2 =>
             p2 a b
             || match r2 with
                | String c _ => p3 a b c
                | EmptyString => false
                end
         | EmptyString => false
         end
  | EmptyString => false
  end.

(** ** Position of an entry in the memo *)

(** The entry [(k, v)] is the first one under [k] and has at most [n]
    entries in front of it. *)
Definition fronted (k : string * string) (v : option json) (n : nat)
                   (m : list ((string * string) * option json)) : Prop :=
  exists pre post,
    m = pre ++ (k, v) :: post /\ Forall (fun e => fst e <> k) pre /\ (length pre <= n)%nat.

(** ** Cover file endpoint *)

(** [s.endswith(suffix)] *)
Definition endswith (suffix s : string) : bool :=
  (String.length suffix <=? String.length s)%nat
  && String.eqb (drop (String.length s - String.length suffix) s) suffix.

(** What a route returns: a text with a status code, or the file that
    [send_file] streams with the given mimetype. *)
Inductive HttpResponse : Type :=
| Body (text : string) (status : nat)
| SendFile (path mimetype : string).

(** Lines 184 to 189: the mimetype by the extension of the path. *)
Definition guess_mimetype (w : World) (cover_path : string) : string :=
  if endswith ".png" (str_lower w cover_path) then "image/png"
  else if endswith ".gif" (str_lower w cover_path) then "image/gif"
  else "image/jpeg".

(** [api_cover].  [arg] is the query argument [path] if the request has
    one; [send_error path] is [None] when [send_file] succeeds on the
    path and the text of the exception it raises otherwise. *)
Definition api_cover (w : World) (send_error : string -> option string)
                     (arg : option string) : HttpResponse :=
  let cover_path := default EmptyString arg in
  if is_empty cover_path then Body "No path provided" 400
  else
    let cover_path :=
      if startswith "file://" cover_path then drop 7 cover_path else cover_path in
    if negb (path_exists w cover_path) then Body "File not found" 404
    else
      let mimetype := guess_mimetype w cover_path in
      match send_error cover_path with
      | None => SendFile cover_path mimetype
      | Some e => Body ("Error serving file: " +:+ e) 500
      end.

(** Two players, both playing; the first reports the length [10^400],
    the second a plain track. *)
Definition abort_world : World :=
  {| playerctl :=
       scripted ("vlc" +:+ String "010"%char "mpv")
                (fun _ => "Playing")
                (fun p => if String.eqb p "vlc" then huge_length_line else "T|A|||")
                (fun _ => "");
     path_exists := fun _ => false;
     str_lower := lower_latin1;
     todecimal := unicode14_decimal;
     LASTFM_API_KEY := "";
     http_get := fun _ _ _ => None |}.

(** One player with a local cover file that is on disk. *)
Definition local_cover_world : World :=
  {| playerctl := scripted "spotify" (fun _ => "Playing")
                    (fun _ => "A|B||file:///tmp/cover.PNG|") (fun _ => "");
     path_exists := fun p => String.eqb p "/tmp/cover.PNG";
     str_lower := lower_latin1;
     todecimal := unicode14_decimal;
     LASTFM_API_KEY := "key";
     http_get := http_get answering_world |}.

(** One player with a local cover file that is gone and no artist. *)
Definition untagged_world : World :=
  {| playerctl := scripted "spotify" (fun _ => "Playing")
                    (fun _ => "A|||file:///tmp/gone.jpg|") (fun _ => "");
     path_exists := fun _ => false;
     str_lower := lower_latin1;
     todecimal := unicode14_decimal;
     LASTFM_API_KEY := "key";
     http_get := http_get answering_world |}.



(** The catalog answers with its error body. *)
Definition error_world : World :=
  {| playerctl := fun _ => None;
     path_exists := fun _ => false;
     str_lower := lower_latin1;
     todecimal := unicode14_decimal;
     LASTFM_API_KEY := "key";
     http_get := fun _ _ _ =>
       Some (JObj [("error", JInt 6); ("message", JStr "Track not found")]) |}.

(** A result of the cover lookup that is present is not empty. *)
Definition present_is_truthy (r : option json) : Prop :=
  match r with
  | Some v => truthy v = true
  | None => True
  end.

(** * Properties *)

(** ** Player discovery *)

(** C2. A player whose identifier contains two preference names
    ([chrome] and [google-chrome]) is listed once per name: on the
    one-line listing [google-chrome.instance1] the result has two
    elements and is no permutation of the input. *)
Theorem list_players_repeats_double_match :
  let w := solo_world "google-chrome.instance1" "" "" in
  list_players w = ["google-chrome.instance1"; "google-chrome.instance1"]
  /\ order_players w ["google-chrome.instance1"]
     = ["google-chrome.instance1"; "google-chrome.instance1"]
  /\ ~ Permutation ["google-chrome.instance1"] (order_players w ["google-chrome.instance1"]).
Proof.
  split; [reflexivity|]. split; [reflexivity|].
  intros H. apply Permutation_length in H. vm_compute in H. discriminate.
Qed.

(** ** Player poller *)

(** C7. On a metadata line whose length field is the integer [10^400],
    [int] succeeds and the division by 1000000 raises [OverflowError],
    which the [except ValueError] clause lets through: the poller raises
    instead of returning metadata. *)
Theorem player_metadata_raises_on_huge_length :
  contains "|" huge_length_line = true
  /\ py_int unicode14_decimal (length_field huge_length_line) = Returns (10 ^ 400)%Z
  /\ player_metadata (solo_world "spotify" huge_length_line "1.5") "spotify"
     = Raises OverflowError.
Proof. vm_compute. auto. Qed.

(** C9, as stated, fails: a player that reports a negative length and a
    negative position gets both passed through. *)
Lemma negative_readings_pass_through :
  exists m,
    player_metadata (solo_world "spotify" "t|a|b|c|-1000000" "-2.5") "spotify"
    = Returns (Some m)
    /\ nonnegb (length_seconds m) = false
    /\ nonnegb (position m) = false.
Proof. eexists. vm_compute. auto. Qed.

(** ** Now-playing resolver *)

(** C1. With one player, playing, whose metadata line carries the length
    [10^400], the resolver returns neither shape: the [OverflowError] of
    the poller propagates. *)
Theorem get_now_playing_raises_on_huge_length :
  forall now st,
    get_now_playing (solo_world "spotify" huge_length_line "1.5") now st
    = (Raises OverflowError, st).
Proof. intros now st. vm_compute. reflexivity. Qed.

(** ** Cover resolver: the memoizing layer *)

Section Memo.

Implicit Types (k : string * string) (m : list ((string * string) * option json)).

Lemma same_args_true k k' : same_args k k' = true <-> k = k'.
Proof.
  destruct k as [a t], k' as [a' t']; unfold same_args; simpl.
  rewrite andb_true_iff, !String.eqb_eq. split.
  - intros [-> ->]; reflexivity.
  - intros [= -> ->]; auto.
Qed.

Lemma same_args_refl k : same_args k k = true.
Proof. apply same_args_true; reflexivity. Qed.

Lemma same_args_false k k' : same_args k k' = false <-> k <> k'.
Proof.
  rewrite <- same_args_true. destruct (same_args k k'); split; congruence.
Qed.

Lemma memo_find_all_none k m v :
  Forall (fun e => snd e = None) m -> memo_find k m = Some v -> v = None.
Proof.
  induction 1 as [|[k' v'] m Hv _ IH]; simpl; [discriminate|].
  destruct (same_args k' k); [|exact IH].
  simpl in Hv; congruence.
Qed.

Lemma memo_remove_all_none k m :
  Forall (fun e => snd e = None) m -> Forall (fun e => snd e = None) (memo_remove k m).
Proof.
  unfold memo_remove. induction 1 as [|e m He _ IH]; simpl; [constructor|].
  destruct (negb _); [constructor|]; assumption.
Qed.

End Memo.

Lemma lastfm_cover_raw_no_key w a t st :
  LASTFM_API_KEY w = "" -> _lastfm_cover w a t st = (None, count_lookup st).
Proof. intros H. unfold _lastfm_cover. rewrite H. reflexivity. Qed.

(** What one raw lookup leaves of the state: only the two counters move. *)
Lemma lastfm_cover_raw_state w a t st :
  let st' := snd (_lastfm_cover w a t st) in
  ttl st' = ttl st /\ memo st' = memo st /\ clears st' = clears st
  /\ lookups st' = S (lookups st)
  /\ (requests st <= requests st' <= S (requests st))%nat.
Proof.
  unfold _lastfm_cover.
  destruct (is_empty (LASTFM_API_KEY w)); simpl; [repeat split; lia|].
  destruct (http_get w _ a t) as [data|]; simpl; [|repeat split; lia].
  destruct (select_image data); simpl; repeat split; lia.
Qed.

(** Without a key the memo only ever holds absent results. *)
Lemma lastfm_cover_no_key_step w a t now st :
  LASTFM_API_KEY w = "" ->
  Forall (fun e => snd e = None) (memo st) ->
  fst (lastfm_cover w a t now st) = None
  /\ Forall (fun e => snd e = None) (memo (snd (lastfm_cover w a t now st)))
  /\ requests (snd (lastfm_cover w a t now st)) = requests st.
Proof.
  intros Hkey Hinv. unfold lastfm_cover.
  set (st1 := if past now _ then _ else st).
  assert (H1 : Forall (fun e => snd e = None) (memo st1) /\ requests st1 = requests st).
  { subst st1. destruct (past now _); simpl; auto. }
  destruct H1 as [H1 Hr]. clearbody st1.
  unfold _lastfm_cover_cached.
  destruct (memo_find (a, t) (memo st1)) as [v|] eqn:Hf; simpl.
  - apply (memo_find_all_none _ _ _ H1) in Hf. subst v.
    repeat split; auto. constructor; [reflexivity|].
    apply memo_remove_all_none; assumption.
  - rewrite (lastfm_cover_raw_no_key _ _ _ _ Hkey). simpl.
    repeat split; auto.
    constructor; [reflexivity|]. apply Forall_take; assumption.
Qed.

(** C8. With no API key configured the underlying lookup returns absence
    at once, touching nothing but the count of its own calls, and along
    any run of calls of the resolver from the initial state every result
    is absent and no HTTP request is ever sent. *)
Theorem no_credential_no_request (w : World) (calls : list (string * string * Q)) :
  LASTFM_API_KEY w = "" ->
  (forall a t st, _lastfm_cover w a t st = (None, count_lookup st))
  /\ Forall (fun r => r = None) (fst (lastfm_calls w calls init_state))
  /\ requests (snd (lastfm_calls w calls init_state)) = 0%nat.
Proof.
  intros Hkey. split; [intros; apply lastfm_cover_raw_no_key; assumption|].
  change 0%nat with (requests init_state).
  assert (Hinv : Forall (fun e => snd e = None) (memo init_state)) by constructor.
  generalize dependent init_state. induction calls as [|[[a t] now] more IH]; intros st Hinv.
  - simpl. split; [constructor|reflexivity].
  - simpl.
    destruct (lastfm_cover_no_key_step w a t now st Hkey Hinv) as (Hr & Hm & Hq).
    destruct (lastfm_cover w a t now st) as [r st1]; simpl in *.
    destruct (IH st1 Hm) as [Hrs Hqs].
    destruct (lastfm_calls w more st1) as [rs st2]; simpl in *.
    split; [constructor; assumption|congruence].
Qed.

Lemma no_credential_no_request_witness :
  LASTFM_API_KEY (solo_world "spotify" "t|a" "") = ""
  /\ Forall (fun r => r = None)
       (fst (lastfm_calls (solo_world "spotify" "t|a" "")
               [("Muse", "Uprising", 5%Q); ("muse", "uprising", 5000%Q)] init_state)).
Proof.
  split; [reflexivity|].
  apply (no_credential_no_request (solo_world "spotify" "t|a" "")
           [("Muse", "Uprising", 5%Q); ("muse", "uprising", 5000%Q)]).
  reflexivity.
Defined.

(** ** Cover resolver: the TTL map *)

Lemma past_true now e : past now e = true <-> (e < now)%Q.
Proof.
  unfold past. rewrite negb_true_iff, <- not_true_iff_false, Qle_bool_iff.
  split; [apply Qnot_le_lt | apply Qlt_not_le].
Qed.

Lemma past_false now e : past now e = false <-> (now <= e)%Q.
Proof. unfold past. rewrite negb_false_iff. apply Qle_bool_iff. Qed.

(** A call that finds its key expired: the cache is emptied, the expiry
    renewed, the lookup made and its result the only entry left. *)
Lemma lastfm_cover_expired w a t now st :
  past now (default 0%Q (ttl st !! cache_key w a t)) = true ->
  let r := fst (lastfm_cover w a t now st) in
  let st' := snd (lastfm_cover w a t now st) in
  r = fst (_lastfm_cover w a t (invalidate (cache_key w a t) now st))
  /\ clears st' = S (clears st)
  /\ ttl st' = <[cache_key w a t := (now + 3600)%Q]> (ttl st)
  /\ memo st' = [((a, t), r)]
  /\ lookups st' = S (lookups st).
Proof.
  intros He. unfold lastfm_cover. rewrite He.
  unfold _lastfm_cover_cached. cbn [memo invalidate memo_find].
  pose proof (lastfm_cover_raw_state w a t (invalidate (cache_key w a t) now st)) as H.
  cbv zeta in H. destruct H as (Ht & Hm & Hc & Hl & _).
  destruct (_lastfm_cover w a t (invalidate (cache_key w a t) now st)) as [v st1].
  cbn [fst snd] in *. cbn [memo set_memo ttl clears lookups invalidate] in *.
  rewrite Hm. repeat split; assumption.
Qed.

(** A call that finds its key alive: nothing is cleared, and the memo
    decides whether the lookup is made. *)
Lemma lastfm_cover_alive w a t now st :
  past now (default 0%Q (ttl st !! cache_key w a t)) = false ->
  lastfm_cover w a t now st = _lastfm_cover_cached w a t st.
Proof. intros He. unfold lastfm_cover. rewrite He. reflexivity. Qed.

Lemma lastfm_cover_cached_hit w a t st v :
  memo_find (a, t) (memo st) = Some v ->
  _lastfm_cover_cached w a t st
  = (v, set_memo (((a, t), v) :: memo_remove (a, t) (memo st)) st).
Proof. intros H. unfold _lastfm_cover_cached. rewrite H. reflexivity. Qed.

Lemma lastfm_cover_cached_miss w a t st :
  memo_find (a, t) (memo st) = None ->
  let r := fst (_lastfm_cover_cached w a t st) in
  let st' := snd (_lastfm_cover_cached w a t st) in
  r = fst (_lastfm_cover w a t st)
  /\ memo st' = take maxsize (((a, t), r) :: memo st)
  /\ ttl st' = ttl st /\ clears st' = clears st
  /\ lookups st' = S (lookups st).
Proof.
  intros H. unfold _lastfm_cover_cached. rewrite H.
  pose proof (lastfm_cover_raw_state w a t st) as Hs.
  cbv zeta in Hs. destruct Hs as (Ht & Hm & Hc & Hl & _).
  destruct (_lastfm_cover w a t st) as [v st1].
  cbn [fst snd] in *. cbn [memo set_memo ttl clears lookups].
  rewrite Hm. repeat split; assumption.
Qed.

(** C3, amended. At a clock reading after the epoch: when the key has no
    stored expiry or its expiry is behind the clock, the whole cache is
    cleared, the key's expiry becomes [now + 3600], and the fresh result
    of this call is the only memoized entry left; when the expiry is not
    behind the clock, nothing is cleared and the TTL map is unchanged,
    and the memoized result is returned without a lookup if the exact
    pair is memoized, the lookup being made otherwise. *)
Theorem lastfm_cover_ttl_policy w a t now st :
  (0 < now)%Q ->
  let key := cache_key w a t in
  let r := fst (lastfm_cover w a t now st) in
  let st' := snd (lastfm_cover w a t now st) in
  ((ttl st !! key = None \/ exists e, ttl st !! key = Some e /\ (e < now)%Q) ->
     clears st' = S (clears st)
     /\ ttl st' = <[key := (now + 3600)%Q]> (ttl st)
     /\ memo st' = [((a, t), r)]
     /\ lookups st' = S (lookups st))
  /\ ((exists e, ttl st !! key = Some e /\ (now <= e)%Q) ->
     clears st' = clears st
     /\ ttl st' = ttl st
     /\ match memo_find (a, t) (memo st) with
        | Some v => r = v /\ lookups st' = lookups st /\ requests st' = requests st
                    /\ memo st' = ((a, t), v) :: memo_remove (a, t) (memo st)
        | None => lookups st' = S (lookups st)
                  /\ r = fst (_lastfm_cover w a t st)
        end).
Proof.
  intros Hnow key r st'. split.
  - intros Hexp.
    assert (He : past now (default 0%Q (ttl st !! key)) = true).
    { apply past_true. destruct Hexp as [-> | (e & -> & He)]; assumption. }
    destruct (lastfm_cover_expired w a t now st He) as (_ & Hc & Ht & Hm & Hl).
    repeat split; assumption.
  - intros (e & Hk & He).
    assert (Hp : past now (default 0%Q (ttl st !! key)) = false).
    { apply past_false. rewrite Hk. exact He. }
    subst r st'. rewrite (lastfm_cover_alive w a t now st Hp).
    destruct (memo_find (a, t) (memo st)) as [v|] eqn:Hf.
    + rewrite (lastfm_cover_cached_hit _ _ _ _ _ Hf). simpl. repeat split.
    + destruct (lastfm_cover_cached_miss w a t st Hf) as (Hr & Hm & Ht & Hc & Hl).
      repeat split; assumption.
Qed.

Lemma lastfm_cover_ttl_policy_witness :
  (0 < 5)%Q
  /\ clears (snd (lastfm_cover answering_world "Muse" "Uprising" 5 init_state)) = 1%nat.
Proof.
  split; [reflexivity|].
  destruct (lastfm_cover_ttl_policy answering_world "Muse" "Uprising" 5 init_state
              ltac:(reflexivity)) as [H _].
  apply H. left. reflexivity.
Defined.

(** C3, as stated, fails: after [("Muse", "Uprising")] at time 1 and
    [("Blur", "Song 2")] at time 2, the first key's expiry 3601 is not
    behind the clock at time 3, nothing is cleared, and yet the lookup
    is made again (a third HTTP request, with a new result), for the
    second call emptied the cache. *)
Lemma alive_key_still_looks_up :
  let w := answering_world in
  let st := snd (lastfm_calls w [("Muse", "Uprising", 1%Q); ("Blur", "Song 2", 2%Q)]
                   init_state) in
  let r1 := fst (lastfm_cover w "Muse" "Uprising" 1 init_state) in
  let r3 := fst (lastfm_cover w "Muse" "Uprising" 3 st) in
  let st' := snd (lastfm_cover w "Muse" "Uprising" 3 st) in
  ttl st !! cache_key w "Muse" "Uprising" = Some 3601%Q
  /\ past 3 3601 = false
  /\ clears st' = clears st
  /\ lookups st' = S (lookups st)
  /\ requests st' = S (requests st)
  /\ r1 = Some (JStr (numbered_url 0))
  /\ r3 = Some (JStr (numbered_url 2)).
Proof. vm_compute. repeat split. Qed.

(** C10. Two spellings of one artist and track that differ in letter
    case only have the same key, hence one expiry, but are memoized
    apart: when the first call opens a bucket and the second falls
    within it, the second clears nothing and leaves the TTL map as it
    is, and each of the two calls makes its own lookup. *)
Theorem case_variants_share_ttl_not_memo w a1 t1 a2 t2 now1 now2 st :
  str_lower w a1 = str_lower w a2 -> str_lower w t1 = str_lower w t2 -> (a1, t1) <> (a2, t2) ->
  past now1 (default 0%Q (ttl st !! cache_key w a1 t1)) = true ->
  (now2 <= now1 + 3600)%Q ->
  let st1 := snd (lastfm_cover w a1 t1 now1 st) in
  let st2 := snd (lastfm_cover w a2 t2 now2 st1) in
  cache_key w a1 t1 = cache_key w a2 t2
  /\ ttl st1 !! cache_key w a2 t2 = Some (now1 + 3600)%Q
  /\ ttl st2 = ttl st1
  /\ clears st2 = clears st1
  /\ lookups st1 = S (lookups st)
  /\ lookups st2 = S (lookups st1).
Proof.
  intros Ha Ht Hne Hexp Hnow st1 st2.
  assert (Hk : cache_key w a1 t1 = cache_key w a2 t2).
  { unfold cache_key. rewrite Ha, Ht. reflexivity. }
  destruct (lastfm_cover_expired w a1 t1 now1 st Hexp) as (_ & Hc1 & Ht1 & Hm1 & Hl1).
  fold st1 in Hc1, Ht1, Hm1, Hl1.
  assert (Hlook : ttl st1 !! cache_key w a2 t2 = Some (now1 + 3600)%Q).
  { rewrite Ht1, <- Hk. apply lookup_insert_eq. }
  assert (Hp : past now2 (default 0%Q (ttl st1 !! cache_key w a2 t2)) = false).
  { apply past_false. rewrite Hlook. exact Hnow. }
  assert (Hf : memo_find (a2, t2) (memo st1) = None).
  { rewrite Hm1. simpl. apply same_args_false in Hne. rewrite Hne. reflexivity. }
  subst st2. rewrite (lastfm_cover_alive w a2 t2 now2 st1 Hp).
  destruct (lastfm_cover_cached_miss w a2 t2 st1 Hf) as (_ & _ & Ht2 & Hc2 & Hl2).
  repeat split; assumption.
Qed.

Lemma case_variants_share_ttl_not_memo_witness :
  str_lower answering_world "ÉDITH" = str_lower answering_world "édith"
  /\ str_lower answering_world "Uprising" = str_lower answering_world "uprising"
  /\ cache_key answering_world "ÉDITH" "Uprising" = cache_key answering_world "édith" "uprising"
  /\ lookups (snd (lastfm_cover answering_world "édith" "uprising" 9
                     (snd (lastfm_cover answering_world "ÉDITH" "Uprising" 5 init_state))))
     = 2%nat.
Proof.
  split; [reflexivity|]. split; [reflexivity|].
  destruct (case_variants_share_ttl_not_memo answering_world
              "ÉDITH" "Uprising" "édith" "uprising" 5 9 init_state
              ltac:(reflexivity) ltac:(reflexivity) ltac:(discriminate)
              ltac:(reflexivity) ltac:(discriminate))
    as (Hk & _ & _ & _ & H1 & H2).
  split; [exact Hk|]. rewrite H2, H1. reflexivity.
Defined.

(** ** Cover resolver: repeated calls *)

Lemma memo_find_fronted k v n m : fronted k v n m -> memo_find k m = Some v.
Proof.
  intros (pre & post & -> & Hpre & _).
  induction Hpre as [|[k' v'] pre Hk _ IH]; simpl.
  - rewrite same_args_refl. reflexivity.
  - simpl in Hk. apply same_args_false in Hk. rewrite Hk. exact IH.
Qed.

Lemma take_past_prefix {A : Type} (n : nat) (l1 l2 : list A) (x : A) :
  (length l1 < n)%nat ->
  take n (l1 ++ x :: l2) = l1 ++ x :: take (n - S (length l1)) l2.
Proof.
  intros H. rewrite take_app, take_ge by lia.
  replace (n - length l1)%nat with (S (n - S (length l1))) by lia.
  reflexivity.
Qed.

Lemma memo_remove_length k m : (length (memo_remove k m) <= length m)%nat.
Proof.
  unfold memo_remove. induction m as [|e m IH]; simpl; [lia|].
  destruct (negb _); simpl; lia.
Qed.

Lemma memo_remove_app k m1 m2 :
  memo_remove k (m1 ++ m2) = memo_remove k m1 ++ memo_remove k m2.
Proof. unfold memo_remove. apply List.filter_app. Qed.

Lemma memo_remove_keeps_others k k' m :
  Forall (fun e => fst e <> k) m -> Forall (fun e => fst e <> k) (memo_remove k' m).
Proof.
  unfold memo_remove. induction 1 as [|e m He _ IH]; simpl; [constructor|].
  destruct (negb _); [constructor|]; assumption.
Qed.

(** One pass through the memoizing layer pushes an entry back by at most
    one place, and keeps it while that place is within [maxsize]. *)
Lemma cached_keeps_fronted w a t st k v n :
  fronted k v n (memo st) -> (S n < maxsize)%nat ->
  fronted k v (S n) (memo (snd (_lastfm_cover_cached w a t st))).
Proof.
  intros Hfr Hn.
  destruct (same_args (a, t) k) eqn:Hk.
  - apply same_args_true in Hk. subst k.
    rewrite (lastfm_cover_cached_hit _ _ _ _ _ (memo_find_fronted _ _ _ _ Hfr)).
    exists [], (memo_remove (a, t) (memo st)). simpl.
    split; [reflexivity|]. split; [constructor|lia].
  - apply same_args_false in Hk.
    destruct Hfr as (pre & post & Hm & Hpre & Hlen).
    destruct (memo_find (a, t) (memo st)) as [v'|] eqn:Hf.
    + rewrite (lastfm_cover_cached_hit _ _ _ _ _ Hf). cbn [snd memo set_memo].
      exists (((a, t), v') :: memo_remove (a, t) pre), (memo_remove (a, t) post).
      split; [|split].
      * rewrite Hm, memo_remove_app. unfold memo_remove at 2. simpl.
        assert (Hx : same_args k (a, t) = false) by (apply same_args_false; congruence).
        rewrite Hx. reflexivity.
      * constructor; [exact Hk|]. apply memo_remove_keeps_others; assumption.
      * simpl. pose proof (memo_remove_length (a, t) pre). lia.
    + destruct (lastfm_cover_cached_miss w a t st Hf) as (_ & Hm' & _).
      rewrite Hm', Hm.
      pose proof (take_past_prefix maxsize
                    (((a, t), fst (_lastfm_cover_cached w a t st)) :: pre) post (k, v)) as E.
      rewrite <- app_comm_cons in E. rewrite E by (simpl; lia).
      eexists _, _. split; [apply app_comm_cons|].
      split; [constructor; assumption|simpl; lia].
Qed.

Lemma cached_keeps_clears w a t st :
  clears (snd (_lastfm_cover_cached w a t st)) = clears st.
Proof.
  destruct (memo_find (a, t) (memo st)) as [v|] eqn:Hf.
  - rewrite (lastfm_cover_cached_hit _ _ _ _ _ Hf). reflexivity.
  - apply (lastfm_cover_cached_miss w a t st Hf).
Qed.

Lemma lastfm_cover_clears w a t now st :
  let st' := snd (lastfm_cover w a t now st) in
  (clears st <= clears st')%nat
  /\ (clears st' = clears st -> lastfm_cover w a t now st = _lastfm_cover_cached w a t st).
Proof.
  destruct (past now (default 0%Q (ttl st !! cache_key w a t))) eqn:He.
  - destruct (lastfm_cover_expired w a t now st He) as (_ & Hc & _).
    cbv zeta. split; lia.
  - cbv zeta. rewrite (lastfm_cover_alive w a t now st He), cached_keeps_clears.
    split; [lia|reflexivity].
Qed.

Lemma lastfm_calls_cons w a t now more st :
  snd (lastfm_calls w ((a, t, now) :: more) st)
  = snd (lastfm_calls w more (snd (lastfm_cover w a t now st))).
Proof.
  simpl. destruct (lastfm_cover w a t now st) as [r st1]. simpl.
  destruct (lastfm_calls w more st1); reflexivity.
Qed.

Lemma lastfm_calls_clears w calls : forall st,
  (clears st <= clears (snd (lastfm_calls w calls st)))%nat.
Proof.
  induction calls as [|[[a t] now] more IH]; intros st; [simpl; lia|].
  rewrite lastfm_calls_cons.
  pose proof (lastfm_cover_clears w a t now st) as [H _].
  specialize (IH (snd (lastfm_cover w a t now st))). lia.
Qed.

Lemma calls_keep_fronted w calls : forall st k v n,
  fronted k v n (memo st) -> (n + length calls < maxsize)%nat ->
  clears (snd (lastfm_calls w calls st)) = clears st ->
  fronted k v (n + length calls) (memo (snd (lastfm_calls w calls st))).
Proof.
  induction calls as [|[[a t] now] more IH]; intros st k v n Hfr Hn Hc.
  - simpl. rewrite Nat.add_0_r. exact Hfr.
  - rewrite lastfm_calls_cons in *. simpl length in *.
    pose proof (lastfm_cover_clears w a t now st) as [Hle Heq].
    pose proof (lastfm_calls_clears w more (snd (lastfm_cover w a t now st))) as Hle'.
    cbv zeta in Hle, Heq.
    assert (Hc1 : clears (snd (lastfm_cover w a t now st)) = clears st) by lia.
    replace (n + S (length more))%nat with (S n + length more)%nat by lia.
    apply IH; [|lia|lia].
    rewrite (Heq Hc1). apply cached_keeps_fronted; [assumption|lia].
Qed.

(** Every call leaves its own pair first in the memo, with the result it
    returned, after at most one lookup. *)
Lemma lastfm_cover_fronts w a t now st :
  fronted (a, t) (fst (lastfm_cover w a t now st)) 0 (memo (snd (lastfm_cover w a t now st)))
  /\ (lookups (snd (lastfm_cover w a t now st)) <= S (lookups st))%nat.
Proof.
  destruct (past now (default 0%Q (ttl st !! cache_key w a t))) eqn:He.
  - destruct (lastfm_cover_expired w a t now st He) as (_ & _ & _ & Hm & Hl).
    cbv zeta in Hm, Hl. split; [|lia].
    exists [], []. rewrite Hm. split; [reflexivity|]. split; [constructor|simpl; lia].
  - rewrite (lastfm_cover_alive w a t now st He).
    destruct (memo_find (a, t) (memo st)) as [v|] eqn:Hf.
    + rewrite (lastfm_cover_cached_hit _ _ _ _ _ Hf). simpl. split; [|lia].
      exists [], (memo_remove (a, t) (memo st)).
      split; [reflexivity|]. split; [constructor|simpl; lia].
    + destruct (lastfm_cover_cached_miss w a t st Hf) as (_ & Hm & _ & _ & Hl).
      cbv zeta in Hm, Hl. split; [|lia].
      rewrite Hm. exists [], (take 255 (memo st)).
      split; [reflexivity|]. split; [constructor|simpl; lia].
Qed.

(** C4, amended. After a call for a pair, and any run of fewer than 256
    further calls, a second call for the same pair returns the same
    result and makes no lookup and sends no request, provided no call
    from the second of the run on cleared the cache; the first call
    itself makes at most one lookup.  (With no call in between this is
    the plain repetition within the bucket.) *)
Theorem repeat_without_clear_is_memoized w a t now1 now2 calls st :
  let r1 := fst (lastfm_cover w a t now1 st) in
  let s1 := snd (lastfm_cover w a t now1 st) in
  let s2 := snd (lastfm_calls w calls s1) in
  let r2 := fst (lastfm_cover w a t now2 s2) in
  let s3 := snd (lastfm_cover w a t now2 s2) in
  (length calls < maxsize)%nat ->
  clears s3 = clears s1 ->
  r2 = r1
  /\ lookups s3 = lookups s2
  /\ requests s3 = requests s2
  /\ (lookups s1 <= S (lookups st))%nat.
Proof.
  intros r1 s1 s2 r2 s3 Hlen Hc.
  destruct (lastfm_cover_fronts w a t now1 st) as [Hfr Hl1].
  fold r1 s1 in Hfr, Hl1.
  pose proof (lastfm_calls_clears w calls s1) as Hle2. fold s2 in Hle2.
  pose proof (lastfm_cover_clears w a t now2 s2) as [Hle3 Heq3].
  cbv zeta in Hle3, Heq3. fold s3 in Hle3, Heq3.
  assert (Hc2 : clears s2 = clears s1) by lia.
  assert (Hc3 : clears s3 = clears s2) by lia.
  pose proof (calls_keep_fronted w calls s1 (a, t) r1 0 Hfr ltac:(simpl; lia) Hc2) as Hfr2.
  fold s2 in Hfr2. apply memo_find_fronted in Hfr2.
  subst r2 s3. rewrite (Heq3 Hc3), (lastfm_cover_cached_hit _ _ _ _ _ Hfr2).
  simpl. repeat split. exact Hl1.
Qed.

Lemma repeat_without_clear_is_memoized_witness :
  fst (lastfm_cover answering_world "Muse" "Uprising" 7
         (snd (lastfm_calls answering_world [("muse", "uprising", 6%Q)]
                 (snd (lastfm_cover answering_world "Muse" "Uprising" 5 init_state)))))
  = fst (lastfm_cover answering_world "Muse" "Uprising" 5 init_state).
Proof.
  apply (repeat_without_clear_is_memoized answering_world "Muse" "Uprising" 5 7
           [("muse", "uprising", 6%Q)] init_state).
  - vm_compute. lia.
  - reflexivity.
Defined.

(** C4, as stated, fails: the memo holds 256 entries.  After a call for
    one spelling of a pair and calls for 256 other spellings of it, all
    under the one key and within its hour, the cache has not been
    cleared, yet the first spelling is looked up anew and the result is
    another one. *)
Lemma memo_entry_evicted_without_clear :
  let w := answering_world in
  let others := map (fun i => ("a", cased 9 i, 2%Q)) (seq 1 256) in
  let r1 := fst (lastfm_cover w "a" (cased 9 0) 1 init_state) in
  let s1 := snd (lastfm_cover w "a" (cased 9 0) 1 init_state) in
  let s2 := snd (lastfm_calls w others s1) in
  let r2 := fst (lastfm_cover w "a" (cased 9 0) 3 s2) in
  let s3 := snd (lastfm_cover w "a" (cased 9 0) 3 s2) in
  ttl s3 !! cache_key w "a" (cased 9 0) = Some 3601%Q
  /\ clears s3 = clears s1
  /\ lookups s3 = S (lookups s2)
  /\ r1 = Some (JStr (numbered_url 0))
  /\ r2 = Some (JStr (numbered_url 257)).
Proof. vm_compute. repeat split. Qed.

(** ** Now-playing resolver: the cover policy *)

Lemma is_empty_true s : is_empty s = true <-> s = "".
Proof. destruct s; simpl; split; congruence. Qed.

Lemma is_empty_false s : is_empty s = false <-> s <> "".
Proof. destruct s; simpl; split; congruence. Qed.

Ltac empties :=
  repeat match goal with
         | H : is_empty _ = true |- _ => apply is_empty_true in H
         | H : is_empty _ = false |- _ => apply is_empty_false in H
         end.

(** The loop stops at a playing player with metadata. *)
Lemma poll_stops_at w now p more m st :
  is_playing w p = true -> player_metadata w p = Returns (Some m) ->
  poll w now (p :: more) st
  = (Returns (Playing (title m) (artist m) (album m)
                      (fst (resolve_cover w now (title m) (artist m) (artUrl m) st))
                      (if is_empty (player m) then p else player m)
                      (position m) (length_seconds m)),
     snd (resolve_cover w now (title m) (artist m) (artUrl m) st)).
Proof.
  unfold is_playing. intros Hs Hm. cbn [poll]. rewrite Hs, Hm.
  destruct (resolve_cover w now (title m) (artist m) (artUrl m) st); reflexivity.
Qed.

(** C5. For the player the loop stops at, with metadata [m]: an empty
    cover reference with title and artist both present is resolved by
    the remote lookup for (artist, title); a reference that starts with
    [file://] whose path, the reference without its first seven
    characters, is not on disk is resolved by the same lookup when title
    and artist are both present; in every other case the reference is
    kept as it is and the resolver state is untouched. *)
Theorem cover_policy w now p more m st :
  is_playing w p = true -> player_metadata w p = Returns (Some m) ->
  let answer c st' :=
    (Returns (Playing (title m) (artist m) (album m) c
                      (if is_empty (player m) then p else player m)
                      (position m) (length_seconds m)), st') in
  let remote :=
    answer (or_empty (fst (lastfm_cover w (artist m) (title m) now st)))
           (snd (lastfm_cover w (artist m) (title m) now st)) in
  let present := title m <> "" /\ artist m <> "" in
  let dead_file :=
    startswith "file://" (artUrl m) = true /\ path_exists w (drop 7 (artUrl m)) = false in
  (artUrl m = "" -> present -> poll w now (p :: more) st = remote)
  /\ (dead_file -> present -> poll w now (p :: more) st = remote)
  /\ (~ (artUrl m = "" /\ present) -> ~ (dead_file /\ present) ->
      poll w now (p :: more) st = answer (JStr (artUrl m)) st).
Proof.
  intros Hs Hm answer remote present dead_file.
  rewrite (poll_stops_at w now p more m st Hs Hm).
  subst answer remote present dead_file. cbv beta. unfold resolve_cover.
  destruct (is_empty (artUrl m)) eqn:Hc, (is_empty (title m)) eqn:Ht,
           (is_empty (artist m)) eqn:Ha,
           (startswith "file://" (artUrl m)) eqn:Hf,
           (path_exists w (drop 7 (artUrl m))) eqn:He;
    cbn [andb negb orb];
    destruct (lastfm_cover w (artist m) (title m) now st) as [r st'];
    cbn [fst snd]; empties;
    try (rewrite Hc in Hf; discriminate Hf);
    repeat split; intros; try reflexivity; exfalso; intuition congruence.
Qed.

Lemma cover_policy_witness :
  exists m st',
    player_metadata missing_file_world "spotify" = Returns (Some m)
    /\ artUrl m = "file:///tmp/missing.jpg"
    /\ poll missing_file_world 5 ["spotify"] init_state
       = (Returns (Playing "A" "B" "" (JStr (numbered_url 0)) "spotify" (FFin 0) (FFin 0)), st').
Proof.
  eexists _, _. split; [reflexivity|]. split; [reflexivity|].
  destruct (cover_policy missing_file_world 5 "spotify" [] _ init_state
              ltac:(reflexivity) ltac:(reflexivity)) as (_ & H & _).
  rewrite H.
  - vm_compute. reflexivity.
  - split; reflexivity.
  - split; discriminate.
Defined.

(** ** Cover resolver: the image selection *)

Lemma mem_head k ks : mem k (k :: ks) = true.
Proof. unfold mem. simpl. rewrite String.eqb_refl. reflexivity. Qed.















(** ** Player poller: the numbers *)

Lemma magnitude_nonneg s q : magnitude s = Some q -> (0 <= q)%Q.
Proof.
  unfold magnitude. destruct (break_at is_e s) as [m e].
  destruct (mantissa m) as [[ds nfrac]|]; [|discriminate].
  destruct (match e with None => Some 0%Z | Some x => exponent x end) as [ex|];
    [|discriminate].
  intros [= <-]. apply Qmult_le_0_compat.
  - change 0%Q with (inject_Z 0). rewrite <- Zle_Qle. apply N2Z.is_nonneg.
  - apply Qpower_0_le. discriminate.
Qed.

Lemma parse_length_nonneg w s f :
  parse_length w s = Returns f -> leading_minus w s = false -> nonnegb f = true.
Proof.
  unfold parse_length, leading_minus, py_int.
  destruct (is_empty s); [intros [= <-] _; reflexivity|].
  destruct (take_sign (strip_by isspace_c (to_ascii (todecimal w) s))) as [negative body]. cbn [fst].
  intros H ->. revert H.
  destruct (digitpart body) as [ds|]; cbn [mbind outcome_bind except_ValueError];
    [|intros [= <-]; reflexivity].
  destruct (int_max_str_digits <? length ds)%nat;
    cbn [mbind outcome_bind except_ValueError]; [intros [= <-]; reflexivity|].
  unfold int_truediv, apply_sign.
  destruct (overflows _); cbn [except_ValueError]; [discriminate|].
  intros [= <-]. cbn [nonnegb]. apply Qle_bool_iff.
  unfold Qle. cbn [Qnum Qden]. pose proof (N2Z.is_nonneg (digits_value ds)). lia.
Qed.

Lemma parse_position_nonneg w s f :
  parse_position w s = Returns f -> leading_minus w s = false ->
  nonnegb f = true \/ f = FNan.
Proof.
  unfold parse_position, leading_minus, py_float.
  destruct (is_empty s); [intros [= <-] _; left; reflexivity|].
  destruct (take_sign (strip_by isspace_c (to_ascii (todecimal w) s))) as [negative body]. cbn [fst].
  intros H ->. revert H.
  destruct (_ || _); cbn [except_ValueError]; [intros [= <-]; left; reflexivity|].
  destruct (String.eqb _ "nan"); cbn [except_ValueError]; [intros [= <-]; right; reflexivity|].
  destruct (magnitude body) as [q|] eqn:Hq; cbn [except_ValueError];
    [|intros [= <-]; left; reflexivity].
  destruct (overflows q); cbn [except_ValueError]; intros [= <-]; left; [reflexivity|].
  cbn [nonnegb signed]. apply Qle_bool_iff. exact (magnitude_nonneg _ _ Hq).
Qed.

(** What the poller returns, field by field. *)
Lemma player_metadata_fields w p m :
  player_metadata w p = Returns (Some m) ->
  let raw := metadata_line w p in
  let fields := split "|" raw ++ [""; ""; ""; ""; ""] in
  is_empty raw = false /\ contains "|" raw = true
  /\ title m = strip (nth 0 fields "") /\ artist m = strip (nth 1 fields "")
  /\ album m = strip (nth 2 fields "") /\ artUrl m = strip (nth 3 fields "")
  /\ player m = p
  /\ parse_position w (position_line w p) = Returns (position m)
  /\ parse_length w (length_field raw) = Returns (length_seconds m).
Proof.
  intros H raw fields. unfold length_field, position_line. fold raw fields.
  revert H. unfold player_metadata. fold (metadata_line w p). fold raw. cbv zeta.
  destruct (is_empty raw); cbn [orb]; [discriminate|].
  destruct (contains "|" raw); cbn [negb]; [|discriminate].
  fold fields. clearbody fields.
  destruct fields as [|t [|a [|al [|art [|len rest]]]]]; cbn [take]; try discriminate.
  cbn [nth].
  destruct (parse_position _) as [pos|e]; cbn [mbind outcome_bind]; [|discriminate].
  destruct (parse_length w len) as [ls|e]; cbn [mbind outcome_bind]; [|discriminate].
  intros [= <-]. cbn. repeat split.
Qed.

(** C9, amended. In the metadata the poller returns, the length is
    non-negative when no minus sign leads the length field, and the
    position is non-negative or not-a-number when no minus sign leads
    the position output; a negative reading is passed through. *)
Theorem readings_nonneg_without_minus w p m :
  player_metadata w p = Returns (Some m) ->
  (leading_minus w (length_field (metadata_line w p)) = false ->
     nonnegb (length_seconds m) = true)
  /\ (leading_minus w (position_line w p) = false ->
     nonnegb (position m) = true \/ position m = FNan).
Proof.
  intros H. apply player_metadata_fields in H. cbv zeta in H.
  destruct H as (_ & _ & _ & _ & _ & _ & _ & Hpos & Hlen).
  split; intros Hm.
  - exact (parse_length_nonneg _ _ _ Hlen Hm).
  - exact (parse_position_nonneg _ _ _ Hpos Hm).
Qed.

Lemma readings_nonneg_without_minus_witness :
  exists m,
    player_metadata (solo_world "spotify" "A|B|C||215000000" "12.5") "spotify"
    = Returns (Some m)
    /\ nonnegb (length_seconds m) = true.
Proof.
  eexists. split; [reflexivity|].
  apply (readings_nonneg_without_minus (solo_world "spotify" "A|B|C||215000000" "12.5")
           "spotify" _ eq_refl).
  reflexivity.
Defined.

(** ** Player poller: what holds of the parsing *)

(** An empty line, or one without the delimiter, gives the empty result. *)
Lemma player_metadata_without_delimiter w p :
  metadata_line w p = "" \/ contains "|" (metadata_line w p) = false ->
  player_metadata w p = Returns None.
Proof.
  unfold player_metadata. fold (metadata_line w p). cbv zeta.
  intros [-> | ->]; [reflexivity|].
  rewrite orb_true_r. reflexivity.
Qed.

(** The position never makes the poller raise. *)
Lemma parse_position_returns w s : exists f, parse_position w s = Returns f.
Proof.
  unfold parse_position, py_float.
  destruct (is_empty s); [eexists; reflexivity|].
  destruct (take_sign _) as [negative body].
  destruct (_ || _); [eexists; reflexivity|].
  destruct (String.eqb _ "nan"); [eexists; reflexivity|].
  destruct (magnitude body) as [q|]; [|eexists; reflexivity].
  destruct (overflows q); eexists; reflexivity.
Qed.

(** The length makes it raise in one way only: an integer too large for
    the division. *)
Lemma parse_length_raises w s e :
  parse_length w s = Raises e ->
  e = OverflowError
  /\ exists n, py_int (todecimal w) s = Returns n /\ overflows (n # 1000000) = true.
Proof.
  unfold parse_length. destruct (is_empty s); [discriminate|].
  destruct (py_int (todecimal w) s) as [n|e'] eqn:Hi; cbn [mbind outcome_bind].
  - unfold int_truediv. destruct (overflows (n # 1000000)) eqn:Ho;
      cbn [except_ValueError]; [|discriminate].
    intros [= <-]. split; [reflexivity|]. exists n. split; [reflexivity|exact Ho].
  - assert (e' = ValueError) as ->; [|discriminate].
    revert Hi. unfold py_int. destruct (take_sign _) as [negative body].
    destruct (digitpart body) as [ds|]; [|congruence].
    destruct (_ <? _)%nat; congruence.
Qed.

(** The padded split always has its five fields. *)
Lemma split_nonempty sep s : split sep s <> [].
Proof.
  destruct s as [|c r]; simpl; [discriminate|].
  destruct (Ascii.eqb c sep); [discriminate|].
  destruct (split sep r); discriminate.
Qed.

(** With a delimiter in the line, the poller returns metadata unless the
    length overflows. *)
Lemma player_metadata_with_delimiter w p :
  metadata_line w p <> "" -> contains "|" (metadata_line w p) = true ->
  (exists m, player_metadata w p = Returns (Some m))
  \/ (player_metadata w p = Raises OverflowError
      /\ parse_length w (length_field (metadata_line w p)) = Raises OverflowError).
Proof.
  intros He Hc. apply is_empty_false in He.
  unfold player_metadata, length_field. fold (metadata_line w p). cbv zeta.
  rewrite He, Hc. cbn [orb negb].
  pose proof (split_nonempty "|" (metadata_line w p)) as Hs.
  destruct (split "|" (metadata_line w p)) as [|t [|a [|al [|art [|len rest]]]]];
    [congruence|..]; cbn [app take nth].
  all: destruct (parse_position_returns w (run w ["playerctl"; "-p"; p; "position"]))
         as [pos ->]; cbn [mbind outcome_bind].
  all: match goal with
       | |- context [parse_length ?w0 ?s] =>
           destruct (parse_length w0 s) as [ls|e] eqn:Hl; cbn [mbind outcome_bind];
           [left; eexists; reflexivity
           |right; destruct (parse_length_raises _ _ _ Hl) as [-> _]; split; reflexivity]
       end.
Qed.

(** ** Now-playing resolver: the selection *)

Lemma poll_skips w now p more st :
  skipped w p -> poll w now (p :: more) st = poll w now more st.
Proof.
  unfold skipped, is_playing. cbn [poll]. intros [-> | ->]; [reflexivity|].
  destruct (String.eqb _ "playing"); reflexivity.
Qed.

Lemma poll_passes w now pre rest st :
  Forall (skipped w) pre -> poll w now (pre ++ rest) st = poll w now rest st.
Proof.
  induction 1 as [|p pre Hp _ IH]; [reflexivity|].
  rewrite <- app_comm_cons, poll_skips by assumption. exact IH.
Qed.

Lemma poll_raises w now p more e st :
  is_playing w p = true -> player_metadata w p = Raises e ->
  poll w now (p :: more) st = (Raises e, st).
Proof. unfold is_playing. cbn [poll]. intros -> ->. reflexivity. Qed.

(** Where the poller does not raise, the loop returns one of the two
    shapes: stopped when every player is passed over, else the playing
    shape of the first player that is not. *)
Lemma poll_selects w now players st :
  (forall p, In p players -> is_playing w p = true ->
             exists r, player_metadata w p = Returns r) ->
  (Forall (skipped w) players /\ poll w now players st = (Returns Stopped, st))
  \/ (exists pre p post m,
        players = pre ++ p :: post /\ Forall (skipped w) pre
        /\ is_playing w p = true /\ player_metadata w p = Returns (Some m)
        /\ poll w now players st = poll w now (p :: post) st).
Proof.
  induction players as [|p players IH]; intros Hret.
  - left. split; [constructor|reflexivity].
  - destruct (is_playing w p) eqn:Hp.
    + destruct (Hret p (or_introl eq_refl) Hp) as [[m|] Hm].
      * right. exists [], p, players, m. repeat split; auto.
      * destruct IH as [[Hall Hs] | (pre & q & post & m & -> & Hpre & Hq & Hm' & Hs)].
        { intros q Hq. apply Hret. right. exact Hq. }
        { left. split; [constructor; [right|]; assumption|].
          rewrite poll_skips by (right; assumption). exact Hs. }
        { right. exists (p :: pre), q, post, m.
          repeat split; auto; [constructor; [right|]; assumption|].
          rewrite poll_skips by (right; assumption). exact Hs. }
    + destruct IH as [[Hall Hs] | (pre & q & post & m & -> & Hpre & Hq & Hm' & Hs)].
      { intros q Hq. apply Hret. right. exact Hq. }
      { left. split; [constructor; [left|]; assumption|].
        rewrite poll_skips by (left; assumption). exact Hs. }
      { right. exists (p :: pre), q, post, m.
        repeat split; auto; [constructor; [left|]; assumption|].
        rewrite poll_skips by (left; assumption). exact Hs. }
Qed.

(** No player listed: stopped. *)
Lemma get_now_playing_no_players w now st :
  list_players w = [] -> get_now_playing w now st = (Returns Stopped, st).
Proof. unfold get_now_playing. intros ->. reflexivity. Qed.

(** ** Player discovery: what holds of the ordering *)

Section Ordering.

Variable w : World.
Variable names : list string.

Let ord (ps : list string) : list string :=
  flat_map (fun name => List.filter (matches w name) ps) names.

Let any (p : string) : bool := existsb (fun name => matches w name p) names.

Lemma mem_In x l : mem x l = true <-> In x l.
Proof.
  unfold mem. rewrite existsb_exists. split.
  - intros (y & Hy & ->%String.eqb_eq). exact Hy.
  - intros H. exists x. split; [exact H|apply String.eqb_refl].
Qed.

Lemma in_ord q ps : In q (ord ps) <-> In q ps /\ any q = true.
Proof.
  unfold ord, any. rewrite in_flat_map, existsb_exists. split.
  - intros (n & Hn & [Hq Hm]%List.filter_In). eauto.
  - intros (Hq & n & Hn & Hm). exists n. split; [exact Hn|].
    apply List.filter_In. auto.
Qed.

Lemma mem_ord q ps : In q ps -> mem q (ord ps) = any q.
Proof.
  intros Hq. apply eq_true_iff_eq. rewrite mem_In, in_ord. tauto.
Qed.

Lemma ord_cons p ps :
  Permutation (ord (p :: ps))
              (repeat p (length (List.filter (fun name => matches w name p) names)) ++ ord ps).
Proof.
  unfold ord. clear any. induction names as [|n ns IH]; [reflexivity|].
  cbn [flat_map List.filter].
  destruct (matches w n p); cbn [length repeat].
  - rewrite <- !app_comm_cons. constructor.
    rewrite IH, !app_assoc.
    apply Permutation_app_tail, Permutation_app_comm.
  - rewrite IH, !app_assoc.
    apply Permutation_app_tail, Permutation_app_comm.
Qed.

Lemma repeat_hits (p : string) :
  repeat p (length (List.filter (fun name => matches w name p) names))
    ++ (if any p then [] else [p])
  = repeat p (Nat.max 1 (length (List.filter (fun name => matches w name p) names))).
Proof.
  unfold any. clear ord any. induction names as [|n ns IH]; [reflexivity|].
  cbn [List.filter existsb]. destruct (matches w n p); cbn [orb length].
  - rewrite app_nil_r. reflexivity.
  - exact IH.
Qed.

Lemma rest_cons p ps :
  rest_players (p :: ps) (ord (p :: ps))
  = (if any p then [] else [p]) ++ rest_players ps (ord ps).
Proof.
  unfold rest_players. cbn [List.filter].
  rewrite (mem_ord p (p :: ps)) by (left; reflexivity).
  assert (E : List.filter (fun q => negb (mem q (ord (p :: ps)))) ps
              = List.filter (fun q => negb (mem q (ord ps))) ps).
  { apply List.filter_ext_in. intros q Hq.
    rewrite (mem_ord q (p :: ps)) by (right; exact Hq).
    rewrite (mem_ord q ps) by exact Hq. reflexivity. }
  rewrite E. destruct (any p); reflexivity.
Qed.

(** Every player comes out once if it contains no name, and once per
    name it contains otherwise. *)
Lemma ord_rest_permutation ps :
  Permutation
    (ord ps ++ rest_players ps (ord ps))
    (flat_map (fun p =>
                 repeat p (Nat.max 1 (length (List.filter (fun name => matches w name p) names))))
              ps).
Proof.
  induction ps as [|p ps IH]; [unfold ord; clear; induction names; auto|].
  rewrite rest_cons, ord_cons. cbn [flat_map].
  rewrite <- repeat_hits, <- IH, <- !app_assoc.
  apply Permutation_app_head. rewrite !app_assoc.
  apply Permutation_app_tail, Permutation_app_comm.
Qed.

End Ordering.

(** The result of the ordering lists each player [max 1 (hits w p)] times. *)
Lemma order_players_multiplicity w players :
  Permutation (order_players w players)
              (flat_map (fun p => repeat p (Nat.max 1 (hits w p))) players).
Proof. exact (ord_rest_permutation w POLL_PLAYERS players). Qed.

(** It is a permutation of the listing when no player contains two of
    the preference names. *)
Lemma order_players_permutation w players :
  Forall (fun p => (hits w p <= 1)%nat) players ->
  Permutation players (order_players w players).
Proof.
  intros H. rewrite order_players_multiplicity.
  induction H as [|p ps Hp _ IH]; [reflexivity|].
  cbn [flat_map]. replace (Nat.max 1 (hits w p)) with 1%nat by lia.
  cbn [repeat app]. constructor. exact IH.
Qed.

(** No player is dropped and none is invented. *)
Lemma order_players_members w players p :
  In p (order_players w players) <-> In p players.
Proof.
  rewrite (Permutation_in' (eq_refl p) (order_players_multiplicity w players)).
  rewrite in_flat_map. split.
  - intros (q & Hq & Hp). apply repeat_spec in Hp. subst. exact Hq.
  - intros Hp. exists p. split; [exact Hp|].
    destruct (Nat.max 1 (hits w p)) eqn:E; [lia|]. left. reflexivity.
Qed.

(** The run of the specification: of [firefox.instance1] and
    [spotify.instance2] the second is playing title A by artist B with no
    cover; the cover comes from the lookup for (B, A). *)
Example two_players_run :
  list_players two_players_world = ["firefox.instance1"; "spotify.instance2"]
  /\ fst (get_now_playing two_players_world 5 init_state)
     = Returns (Playing "A" "B" "" (JStr "http://img/x.jpg") "spotify.instance2"
                        (FFin 0) (FFin 0)).
Proof. split; reflexivity. Qed.

(** * Further properties *)

(** ** Process runner *)

Section Strip.

Variable p1 : ascii -> bool.
Variable p2 : ascii -> ascii -> bool.
Variable p3 : ascii -> ascii -> ascii -> bool.

Lemma append_cons a s y : String a s +:+ y = String a (s +:+ y).
Proof. reflexivity. Qed.

Lemma lstrip_with_fixed s : headed p1 p2 p3 s = false -> lstrip_with p1 p2 p3 s = s.
Proof.
  destruct s as [|a [|b [|c r]]]; cbn [headed lstrip_with]; try reflexivity.
  - destruct (p1 a); [discriminate|reflexivity].
  - destruct (p1 a); [discriminate|]. destruct (p2 a b); [discriminate|reflexivity].
  - destruct (p1 a); [discriminate|]. destruct (p2 a b); [discriminate|].
    destruct (p3 a b c); [discriminate|reflexivity].
Qed.

Lemma lstrip_with_clean n : forall s,
  (String.length s <= n)%nat -> headed p1 p2 p3 (lstrip_with p1 p2 p3 s) = false.
Proof.
  induction n as [|n IH]; intros s Hn.
  - destruct s; [reflexivity|cbn in Hn; lia].
  - destruct s as [|a r1]; [reflexivity|]. cbn [String.length] in Hn.
    cbn [lstrip_with]. destruct (p1 a) eqn:H1; [apply IH; lia|].
    destruct r1 as [|b r2]; [cbn [headed]; rewrite H1; reflexivity|].
    cbn [String.length] in Hn.
    destruct (p2 a b) eqn:H2; [apply IH; lia|].
    destruct r2 as [|c r3]; [cbn [headed]; rewrite H1, H2; reflexivity|].
    cbn [String.length] in Hn.
    destruct (p3 a b c) eqn:H3; [apply IH; lia|].
    cbn [headed]. rewrite H1, H2, H3. reflexivity.
Qed.

Lemma lstrip_with_idempotent s :
  lstrip_with p1 p2 p3 (lstrip_with p1 p2 p3 s) = lstrip_with p1 p2 p3 s.
Proof. apply lstrip_with_fixed. exact (lstrip_with_clean _ s (le_n _)). Qed.

Lemma lstrip_with_suffix n : forall s,
  (String.length s <= n)%nat -> exists x, s = x +:+ lstrip_with p1 p2 p3 s.
Proof.
  induction n as [|n IH]; intros s Hn.
  - destruct s; [exists ""; reflexivity|cbn in Hn; lia].
  - destruct s as [|a r1]; [exists ""; reflexivity|]. cbn [String.length] in Hn.
    cbn [lstrip_with]. destruct (p1 a).
    { destruct (IH r1 ltac:(lia)) as [x Hx]. exists (String a x).
      rewrite append_cons, <- Hx. reflexivity. }
    destruct r1 as [|b r2]; [exists ""; reflexivity|]. cbn [String.length] in Hn.
    destruct (p2 a b).
    { destruct (IH r2 ltac:(lia)) as [x Hx]. exists (String a (String b x)).
      rewrite !append_cons, <- Hx. reflexivity. }
    destruct r2 as [|c r3]; [exists ""; reflexivity|]. cbn [String.length] in Hn.
    destruct (p3 a b c); [|exists ""; reflexivity].
    destruct (IH r3 ltac:(lia)) as [x Hx]. exists (String a (String b (String c x))).
    rewrite !append_cons, <- Hx. reflexivity.
Qed.

Lemma headed_prefix s y : headed p1 p2 p3 s = true -> headed p1 p2 p3 (s +:+ y) = true.
Proof.
  destruct s as [|a [|b [|c r]]]; cbn [headed]; [discriminate|..];
    rewrite ?append_cons; cbn [headed].
  - rewrite orb_false_r. intros ->. reflexivity.
  - rewrite !orb_false_r. destruct (p1 a); [reflexivity|]. cbn [orb].
    intros ->. reflexivity.
  - auto.
Qed.

End Strip.

Lemma list_of_append x y :
  list_ascii_of_string (x +:+ y) = list_ascii_of_string x ++ list_ascii_of_string y.
Proof.
  induction x as [|a x IH]; [reflexivity|].
  rewrite append_cons. cbn [list_ascii_of_string app]. rewrite IH. reflexivity.
Qed.

Lemma string_of_app l1 l2 :
  string_of_list_ascii (l1 ++ l2) = string_of_list_ascii l1 +:+ string_of_list_ascii l2.
Proof.
  induction l1 as [|a l1 IH]; [reflexivity|].
  cbn [app string_of_list_ascii]. rewrite append_cons, IH. reflexivity.
Qed.

Lemma rev_involutive s : rev (rev s) = s.
Proof.
  unfold rev. rewrite list_ascii_of_string_of_list_ascii, List.rev_involutive.
  apply string_of_list_ascii_of_string.
Qed.

Lemma rev_append x y : rev (x +:+ y) = rev y +:+ rev x.
Proof. unfold rev. rewrite list_of_append, List.rev_app_distr. apply string_of_app. Qed.

(** What [rstrip] leaves is a prefix of the text. *)
Lemma rstrip_prefix t : exists y, t = rstrip t +:+ y.
Proof.
  unfold rstrip.
  destruct (lstrip_with_suffix blank1 (fun a b => blank2 b a) (fun a b c => blank3 c b a)
              _ (rev t) (le_n _)) as [x Hx].
  exists (rev x). rewrite <- rev_append, <- Hx. symmetry. apply rev_involutive.
Qed.

Lemma rstrip_idempotent t : rstrip (rstrip t) = rstrip t.
Proof. unfold rstrip. rewrite rev_involutive, lstrip_with_idempotent. reflexivity. Qed.

Lemma strip_idempotent s : strip (strip s) = strip s.
Proof.
  unfold strip.
  assert (H : lstrip (rstrip (lstrip s)) = rstrip (lstrip s)).
  { unfold lstrip at 1. apply lstrip_with_fixed.
    destruct (headed blank1 blank2 blank3 (rstrip (lstrip s))) eqn:Hh; [|reflexivity].
    destruct (rstrip_prefix (lstrip s)) as [y Hy].
    pose proof (headed_prefix blank1 blank2 blank3 _ y Hh) as Hp.
    rewrite <- Hy in Hp. unfold lstrip in Hp.
    rewrite (lstrip_with_clean blank1 blank2 blank3 _ s (le_n _)) in Hp. discriminate. }
  rewrite H. apply rstrip_idempotent.
Qed.

(** X1. What [run] returns carries no blanks at either end, whether the
    subprocess succeeds or fails: stripping it again changes nothing. *)
Theorem run_output_is_stripped w argv : strip (run w argv) = run w argv.
Proof.
  unfold run. destruct (playerctl w argv) as [out|]; [|reflexivity].
  apply strip_idempotent.
Qed.

(** ** Player discovery *)

(** X2. The poll order lists every line of the listing once if it contains
    no preference name, and once per preference name it contains
    otherwise; nothing else is listed. *)
Theorem list_players_multiplicity w :
  Permutation (list_players w)
    (flat_map (fun p => repeat p (Nat.max 1 (hits w p)))
              (splitlines (run w ["playerctl"; "-l"]))).
Proof.
  unfold list_players.
  destruct (is_empty (run w ["playerctl"; "-l"])) eqn:E.
  - apply is_empty_true in E. rewrite E. reflexivity.
  - apply order_players_multiplicity.
Qed.

(** X3. When no listed player contains two preference names, the poll
    order is a permutation of the listing. *)
Theorem list_players_permutation_when_unambiguous w :
  Forall (fun p => (hits w p <= 1)%nat) (splitlines (run w ["playerctl"; "-l"])) ->
  Permutation (splitlines (run w ["playerctl"; "-l"])) (list_players w).
Proof.
  intros H. unfold list_players.
  destruct (is_empty (run w ["playerctl"; "-l"])) eqn:E.
  - apply is_empty_true in E. rewrite E. reflexivity.
  - apply order_players_permutation. exact H.
Qed.

Lemma list_players_permutation_when_unambiguous_witness :
  splitlines (run two_players_world ["playerctl"; "-l"])
  = ["firefox.instance1"; "spotify.instance2"]
  /\ Permutation (splitlines (run two_players_world ["playerctl"; "-l"]))
                 (list_players two_players_world).
Proof.
  assert (E : splitlines (run two_players_world ["playerctl"; "-l"])
              = ["firefox.instance1"; "spotify.instance2"]) by (vm_compute; reflexivity).
  split; [exact E|].
  apply (list_players_permutation_when_unambiguous two_players_world).
  rewrite E. repeat (constructor; [vm_compute; lia|]). constructor.
Defined.

Lemma any_hits w names p :
  existsb (fun name => matches w name p) names
  = negb (length (List.filter (fun name => matches w name p) names) =? 0)%nat.
Proof.
  induction names as [|n ns IH]; [reflexivity|]. cbn [existsb List.filter].
  destruct (matches w n p); [reflexivity|exact IH].
Qed.

(** X4. The players that contain no preference name come last, in the
    order of the listing; every player in front of them contains a
    preference name and is a line of the listing. *)
Theorem unmatched_players_come_last w players :
  order_players w players
  = ordered_players w players ++ List.filter (fun p => (hits w p =? 0)%nat) players
  /\ Forall (fun p => (1 <= hits w p)%nat /\ In p players) (ordered_players w players).
Proof.
  split.
  - unfold order_players, rest_players. f_equal.
    apply List.filter_ext_in. intros p Hp.
    pose proof (mem_ord w POLL_PLAYERS p players Hp) as E.
    change (mem p (ordered_players w players)
            = existsb (fun name => matches w name p) POLL_PLAYERS) in E.
    rewrite E, any_hits, negb_involutive. reflexivity.
  - apply List.Forall_forall. intros p Hp.
    change (In p (flat_map (fun name => List.filter (matches w name) players) POLL_PLAYERS))
      in Hp.
    apply (in_ord w POLL_PLAYERS) in Hp. destruct Hp as [Hin Hany].
    split; [|exact Hin].
    rewrite any_hits in Hany. apply negb_true_iff, Nat.eqb_neq in Hany.
    unfold hits. lia.
Qed.

(** ** Player poller *)

Lemma digit_val_bound c d : digit_val c = Some d -> (d <= 9)%N.
Proof.
  unfold digit_val.
  destruct ((48 <=? code c)%N) eqn:H1, ((code c <=? 57)%N) eqn:H2;
    cbn [andb]; try discriminate.
  intros [= <-]. apply N.leb_le in H1, H2. lia.
Qed.

Lemma digitpart_bound n : forall s ds,
  (String.length s <= n)%nat -> digitpart s = Some ds ->
  (length ds <= String.length s)%nat /\ Forall (fun d => (d <= 9)%N) ds.
Proof.
  induction n as [|n IH]; intros [|c r] ds Hn; cbn [digitpart]; try discriminate.
  - cbn [String.length] in Hn. lia.
  - cbn [String.length] in Hn.
    destruct (digit_val c) as [d|] eqn:Hd; [|discriminate].
    apply digit_val_bound in Hd.
    destruct r as [|c' r'].
    + intros [= <-]. cbn. split; [lia|repeat constructor; assumption].
    + destruct (Ascii.eqb c' "_").
      * destruct (digitpart r') as [ds'|] eqn:Hr; [|discriminate].
        intros [= <-]. cbn [String.length] in *.
        destruct (IH r' ds' ltac:(lia) Hr) as [Hl Hf].
        cbn [length]. split; [lia|constructor; assumption].
      * destruct (digitpart (String c' r')) as [ds'|] eqn:Hr; [|discriminate].
        intros [= <-].
        destruct (IH (String c' r') ds' ltac:(lia) Hr) as [Hl Hf].
        cbn [length String.length] in *. split; [lia|constructor; assumption].
Qed.

Lemma digits_value_from ds : forall acc,
  Forall (fun d => (d <= 9)%N) ds ->
  (fold_left (fun a d => 10 * a + d) ds acc + 1 <= 10 ^ N.of_nat (length ds) * (acc + 1))%N.
Proof.
  induction ds as [|d ds IH]; intros acc Hf.
  - cbn. lia.
  - inversion Hf as [|? ? Hd Hds]; subst.
    cbn [fold_left length]. rewrite Nat2N.inj_succ, N.pow_succ_r'.
    specialize (IH (10 * acc + d)%N Hds). nia.
Qed.

Lemma digits_value_bound ds :
  Forall (fun d => (d <= 9)%N) ds -> (digits_value ds < 10 ^ N.of_nat (length ds))%N.
Proof.
  intros Hf. pose proof (digits_value_from ds 0%N Hf) as H.
  unfold digits_value. lia.
Qed.

Lemma lstrip_by_length sp s : (String.length (lstrip_by sp s) <= String.length s)%nat.
Proof.
  induction s as [|c r IH]; [reflexivity|]. cbn [lstrip_by].
  destruct (sp c); cbn [String.length]; lia.
Qed.

Lemma rstrip_by_length sp s : (String.length (rstrip_by sp s) <= String.length s)%nat.
Proof.
  induction s as [|c r IH]; [reflexivity|]. cbn [rstrip_by].
  destruct (sp c && _); cbn [String.length]; lia.
Qed.

Lemma take_sign_length s : (String.length (snd (take_sign s)) <= String.length s)%nat.
Proof.
  destruct s as [|c r]; [reflexivity|]. cbn [take_sign].
  destruct (Ascii.eqb c "-"); [cbn; lia|].
  destruct (Ascii.eqb c "+"); cbn; lia.
Qed.

Lemma string_of_list_length l : String.length (string_of_list_ascii l) = length l.
Proof. induction l as [|a l IH]; [reflexivity|]. cbn. rewrite IH. reflexivity. Qed.

Lemma to_ascii_length td s : String.length (to_ascii td s) = char_count s.
Proof. unfold to_ascii, char_count. rewrite string_of_list_length. apply length_map. Qed.

Lemma lead_shape n :
  (length (fst (fst (lead n))) + match snd (fst (lead n)) with O => 0 | S _ => 1 end <= 1)%nat.
Proof.
  unfold lead. destruct (n <? 128)%N; [cbn; lia|].
  destruct (_ && _); [cbn; lia|]. destruct (_ && _); [cbn; lia|].
  destruct (_ && _); cbn; lia.
Qed.

Lemma codepoints_from_length s : forall pending acc,
  (length (codepoints_from pending acc s)
   <= String.length s + match pending with O => 0 | S _ => 1 end)%nat.
Proof.
  induction s as [|b r IH]; intros pending acc.
  - destruct pending; cbn; lia.
  - cbn [codepoints_from String.length].
    pose proof (lead_shape (code b)) as Hl.
    destruct (lead (code b)) as [[out pending'] acc']. cbn [fst snd] in Hl.
    destruct pending as [|k].
    + rewrite length_app. specialize (IH pending' acc'). destruct pending'; lia.
    + destruct (_ && _).
      * destruct k as [|k].
        -- cbn [length]. specialize (IH O 0%N). cbn beta iota in IH. lia.
        -- specialize (IH (S k) (acc * 64 + (code b - 128))%N). cbn beta iota in IH. lia.
      * cbn [length]. rewrite length_app. specialize (IH pending' acc').
        destruct pending'; lia.
Qed.

(** A text has no more characters than its encoding has bytes. *)
Lemma char_count_le_length s : (char_count s <= String.length s)%nat.
Proof.
  pose proof (codepoints_from_length s O 0%N) as H. cbn beta iota in H.
  unfold char_count, codepoints. lia.
Qed.

(** The integer [int] reads has no more digits than the text has
    characters. *)
Lemma py_int_magnitude w s n :
  py_int (todecimal w) s = Returns n -> (Z.abs n < 10 ^ Z.of_nat (char_count s))%Z.
Proof.
  unfold py_int. rewrite <- (to_ascii_length (todecimal w) s).
  generalize (to_ascii (todecimal w) s). clear s. intros s.
  pose proof (take_sign_length (strip_by isspace_c s)) as Hs.
  pose proof (lstrip_by_length isspace_c s) as Hl.
  pose proof (rstrip_by_length isspace_c (lstrip_by isspace_c s)) as Hr.
  unfold strip_by in *.
  destruct (take_sign _) as [negative body]. cbn [snd] in Hs.
  destruct (digitpart body) as [ds|] eqn:Hd; [|discriminate].
  destruct (_ <? _)%nat; [discriminate|]. intros [= <-].
  destruct (digitpart_bound _ body ds (le_n _) Hd) as [Hlen Hf].
  pose proof (digits_value_bound ds Hf) as Hv.
  assert (Ha : Z.abs (apply_sign negative (digits_value ds)) = Z.of_N (digits_value ds)).
  { unfold apply_sign. destruct negative; lia. }
  rewrite Ha.
  apply Z.lt_le_trans with (10 ^ Z.of_nat (length ds))%Z.
  - apply N2Z.inj_lt in Hv. rewrite N2Z.inj_pow, nat_N_Z in Hv. exact Hv.
  - apply Z.pow_le_mono_r; lia.
Qed.

Lemma overflows_small n :
  (Z.abs n < 10 ^ 314)%Z -> overflows (n # 1000000) = false.
Proof.
  intros H. unfold overflows. apply not_true_iff_false. rewrite Qle_bool_iff.
  unfold Qle, DBL_OVERFLOW. cbn [Qabs Qnum Qden inject_Z].
  assert (E : (10 ^ 314 <= (2 ^ 1024 - 2 ^ 970) * 1000000)%Z)
    by (apply Z.leb_le; vm_compute; reflexivity).
  change (Z.pos 1000000) with 1000000%Z. lia.
Qed.

Lemma poller_raise_cause w p e :
  player_metadata w p = Raises e ->
  e = OverflowError
  /\ exists n, py_int (todecimal w) (length_field (metadata_line w p)) = Returns n
               /\ overflows (n # 1000000) = true.
Proof.
  intros H.
  destruct (is_empty (metadata_line w p)) eqn:He.
  { apply is_empty_true in He.
    rewrite (player_metadata_without_delimiter w p (or_introl He)) in H. discriminate. }
  destruct (contains "|" (metadata_line w p)) eqn:Hc.
  2:{ rewrite (player_metadata_without_delimiter w p (or_intror Hc)) in H. discriminate. }
  apply is_empty_false in He.
  destruct (player_metadata_with_delimiter w p He Hc) as [[m Hm] | [Hr Hl]];
    [congruence|].
  assert (e = OverflowError) as -> by congruence.
  split; [reflexivity|]. apply (parse_length_raises _ _ _ Hl).
Qed.

(** X5. The one exception that escapes the poller is the [OverflowError]
    of the division, and it takes a length field that [int] reads as an
    integer whose millionth is beyond the largest float. *)
Theorem player_metadata_raises_only_on_overflow w p e :
  player_metadata w p = Raises e ->
  e = OverflowError
  /\ exists n, py_int (todecimal w) (length_field (metadata_line w p)) = Returns n
               /\ overflows (n # 1000000) = true.
Proof. exact (poller_raise_cause w p e). Qed.

Lemma player_metadata_raises_only_on_overflow_witness :
  player_metadata (solo_world "spotify" huge_length_line "1.5") "spotify"
  = Raises OverflowError
  /\ exists n, py_int (todecimal (solo_world "spotify" huge_length_line "1.5"))
                      (length_field (metadata_line (solo_world "spotify" huge_length_line "1.5")
                                                   "spotify")) = Returns n
               /\ overflows (n # 1000000) = true.
Proof.
  assert (H : player_metadata (solo_world "spotify" huge_length_line "1.5") "spotify"
              = Raises OverflowError) by (vm_compute; reflexivity).
  split; [exact H|].
  apply (player_metadata_raises_only_on_overflow _ _ _ H).
Defined.

(** X6. A length field of at most 314 characters never makes the poller
    raise: it returns the empty result or metadata. *)
Theorem player_metadata_returns_for_short_length w p :
  (char_count (length_field (metadata_line w p)) <= 314)%nat ->
  exists r, player_metadata w p = Returns r.
Proof.
  intros Hlen.
  destruct (player_metadata w p) as [r|e] eqn:H; [eauto|].
  destruct (poller_raise_cause w p e H) as (_ & n & Hn & Ho).
  apply py_int_magnitude in Hn.
  rewrite overflows_small in Ho; [discriminate|].
  apply Z.lt_le_trans with (1 := Hn). apply Z.pow_le_mono_r; lia.
Qed.

Lemma player_metadata_returns_for_short_length_witness :
  exists r, player_metadata (solo_world "spotify" "A|B|C||215000000" "12.5") "spotify"
            = Returns r.
Proof.
  apply (player_metadata_returns_for_short_length
           (solo_world "spotify" "A|B|C||215000000" "12.5") "spotify").
  vm_compute. repeat constructor.
Defined.

(** ** Cover resolver: what every run keeps *)

Section MemoShape.

Implicit Types (k : string * string) (m : list ((string * string) * option json)).

Lemma memo_find_forall (P : option json -> Prop) k m v :
  Forall (fun e => P (snd e)) m -> memo_find k m = Some v -> P v.
Proof.
  induction 1 as [|[k' v'] m Hv _ IH]; cbn [memo_find]; [discriminate|].
  destruct (same_args k' k); [|exact IH]. intros [= <-]. exact Hv.
Qed.

Lemma memo_remove_forall (P : (string * string) * option json -> Prop) k m :
  Forall P m -> Forall P (memo_remove k m).
Proof.
  unfold memo_remove. induction 1 as [|e m He _ IH]; cbn [List.filter]; [constructor|].
  destruct (negb _); [constructor|]; assumption.
Qed.

Lemma memo_find_none_keys k m : memo_find k m = None -> ~ In k (map fst m).
Proof.
  induction m as [|[k' v'] m IH]; cbn [memo_find map fst]; [tauto|].
  destruct (same_args k' k) eqn:E; [discriminate|].
  apply same_args_false in E. intros Hf [Hk | Hk]; [congruence|exact (IH Hf Hk)].
Qed.

Lemma memo_remove_keys k m : ~ In k (map fst (memo_remove k m)).
Proof.
  unfold memo_remove. induction m as [|[k' v'] m IH]; cbn [List.filter fst]; [tauto|].
  destruct (same_args k' k) eqn:E; cbn [negb]; [exact IH|].
  apply same_args_false in E. cbn [map fst]. intros [Hk | Hk]; [congruence|exact (IH Hk)].
Qed.

Lemma memo_remove_subkeys k k' m :
  In k' (map fst (memo_remove k m)) -> In k' (map fst m).
Proof.
  unfold memo_remove. rewrite !in_map_iff.
  intros (e & He & [Hin _]%List.filter_In). eauto.
Qed.

Lemma memo_remove_nodup k m :
  List.NoDup (map fst m) -> List.NoDup (map fst (memo_remove k m)).
Proof.
  induction m as [|[k' v'] m IH]; cbn [map fst]; [unfold memo_remove; cbn; auto|].
  intros Hnd. inversion Hnd as [|? ? Hk' Hm]; subst.
  unfold memo_remove. cbn [List.filter fst].
  destruct (negb (same_args k' k)); [|exact (IH Hm)].
  cbn [map fst]. constructor; [|exact (IH Hm)].
  intros Hin. apply Hk'. exact (memo_remove_subkeys k k' m Hin).
Qed.

Lemma memo_remove_shorter k m v :
  memo_find k m = Some v -> (length (memo_remove k m) < length m)%nat.
Proof.
  induction m as [|[k' v'] m IH]; cbn [memo_find]; [discriminate|].
  unfold memo_remove. cbn [List.filter fst length].
  destruct (same_args k' k); cbn [negb length].
  - intros _. pose proof (memo_remove_length k m). unfold memo_remove in *. lia.
  - intros Hf. specialize (IH Hf). unfold memo_remove in IH. lia.
Qed.

Lemma take_keys_nodup n m :
  List.NoDup (map fst m) -> List.NoDup (map fst (take n m)).
Proof.
  revert n. induction m as [|e m IH]; intros [|n]; cbn [take map]; auto using List.NoDup_nil.
  intros Hnd. inversion Hnd as [|? ? He Hm]; subst. constructor; [|exact (IH n Hm)].
  intros Hin. apply He. apply in_map_iff in Hin as (x & Hx & Hin).
  apply in_map_iff. exists x. split; [exact Hx|].
  apply list_elem_of_In. apply list_elem_of_In in Hin.
  exact (subseteq_take n m x Hin).
Qed.

End MemoShape.

(** One call keeps the memo within [maxsize] and its pairs distinct. *)
Lemma lastfm_cover_keeps_shape w a t now st :
  (length (memo st) <= maxsize)%nat /\ List.NoDup (map fst (memo st)) ->
  (length (memo (snd (lastfm_cover w a t now st))) <= maxsize)%nat
  /\ List.NoDup (map fst (memo (snd (lastfm_cover w a t now st)))).
Proof.
  intros [Hlen Hnd].
  destruct (past now (default 0%Q (ttl st !! cache_key w a t))) eqn:He.
  - destruct (lastfm_cover_expired w a t now st He) as (_ & _ & _ & Hm & _).
    cbv zeta in Hm. rewrite Hm. cbn. split; [unfold maxsize; lia|].
    constructor; [tauto|constructor].
  - rewrite (lastfm_cover_alive w a t now st He).
    destruct (memo_find (a, t) (memo st)) as [v|] eqn:Hf.
    + rewrite (lastfm_cover_cached_hit _ _ _ _ _ Hf). cbn [snd memo set_memo].
      split.
      * pose proof (memo_remove_shorter _ _ _ Hf). cbn [length]. lia.
      * cbn [map fst]. constructor; [apply memo_remove_keys|].
        apply memo_remove_nodup. exact Hnd.
    + destruct (lastfm_cover_cached_miss w a t st Hf) as (_ & Hm & _).
      cbv zeta in Hm. rewrite Hm. split.
      * rewrite length_take. lia.
      * apply take_keys_nodup. cbn [map fst]. constructor; [|exact Hnd].
        apply memo_find_none_keys. exact Hf.
Qed.

(** X7. Along any run of calls from the initial state the memo holds at
    most 256 entries and never two entries for one (artist, track)
    pair. *)
Theorem memo_stays_bounded_and_distinct w calls :
  (length (memo (snd (lastfm_calls w calls init_state))) <= maxsize)%nat
  /\ List.NoDup (map fst (memo (snd (lastfm_calls w calls init_state)))).
Proof.
  assert (H0 : (length (memo init_state) <= maxsize)%nat
               /\ List.NoDup (map fst (memo init_state))).
  { cbn. split; [lia|constructor]. }
  generalize dependent init_state. induction calls as [|[[a t] now] more IH]; intros st H0.
  - exact H0.
  - rewrite lastfm_calls_cons. apply IH. apply lastfm_cover_keeps_shape. exact H0.
Qed.

(** One call never drops a key of the TTL map nor lowers its expiry. *)
Lemma lastfm_cover_ttl_grows w a t now st k e :
  ttl st !! k = Some e ->
  exists e', ttl (snd (lastfm_cover w a t now st)) !! k = Some e' /\ (e <= e')%Q.
Proof.
  intros Hk.
  destruct (past now (default 0%Q (ttl st !! cache_key w a t))) eqn:He.
  - destruct (lastfm_cover_expired w a t now st He) as (_ & _ & Ht & _).
    cbv zeta in Ht. rewrite Ht.
    destruct (decide (cache_key w a t = k)) as [<-|Hne].
    + rewrite lookup_insert_eq. eexists. split; [reflexivity|].
      rewrite Hk in He. apply past_true in He. unfold default, id in He. cbn in He. lra.
    + rewrite lookup_insert_ne by exact Hne. exists e. split; [exact Hk|lra].
  - rewrite (lastfm_cover_alive w a t now st He).
    destruct (memo_find (a, t) (memo st)) as [v|] eqn:Hf.
    + rewrite (lastfm_cover_cached_hit _ _ _ _ _ Hf). cbn [snd ttl set_memo].
      exists e. split; [exact Hk|lra].
    + destruct (lastfm_cover_cached_miss w a t st Hf) as (_ & _ & Ht & _).
      cbv zeta in Ht. rewrite Ht. exists e. split; [exact Hk|lra].
Qed.

(** X8. The TTL map is never pruned: a key that has an expiry keeps one
    along any run of calls, and the expiry never moves back. *)
Theorem ttl_never_forgets w calls : forall st k e,
  ttl st !! k = Some e ->
  exists e', ttl (snd (lastfm_calls w calls st)) !! k = Some e' /\ (e <= e')%Q.
Proof.
  induction calls as [|[[a t] now] more IH]; intros st k e Hk.
  - exists e. split; [exact Hk|lra].
  - rewrite lastfm_calls_cons.
    destruct (lastfm_cover_ttl_grows w a t now st k e Hk) as (e1 & H1 & Hle1).
    destruct (IH _ k e1 H1) as (e2 & H2 & Hle2).
    exists e2. split; [exact H2|lra].
Qed.

Lemma ttl_never_forgets_witness :
  let st := snd (lastfm_cover answering_world "Muse" "Uprising" 5 init_state) in
  ttl st !! "muse|uprising" = Some 3605%Q
  /\ exists e', ttl (snd (lastfm_calls answering_world
                            [("Blur", "Song 2", 6%Q); ("Muse", "Uprising", 4000%Q)] st))
                  !! "muse|uprising" = Some e'
                /\ (3605 <= e')%Q.
Proof.
  assert (H : ttl (snd (lastfm_cover answering_world "Muse" "Uprising" 5 init_state))
              !! "muse|uprising" = Some 3605%Q) by (vm_compute; reflexivity).
  split; [exact H|].
  apply (ttl_never_forgets answering_world
           [("Blur", "Song 2", 6%Q); ("Muse", "Uprising", 4000%Q)] _ _ _ H).
Defined.

(** The request count after one raw lookup. *)
Lemma lastfm_cover_raw_requests w a t st :
  requests (snd (_lastfm_cover w a t st))
  = if is_empty (LASTFM_API_KEY w) then requests st else S (requests st).
Proof.
  unfold _lastfm_cover. destruct (is_empty (LASTFM_API_KEY w)); [reflexivity|].
  destruct (http_get w _ a t) as [data|]; [|reflexivity].
  destruct (select_image data); reflexivity.
Qed.

(** One call: no lookup, or one lookup with its request if a key is
    configured; at most one clear. *)
Lemma lastfm_cover_counters w a t now st :
  let st' := snd (lastfm_cover w a t now st) in
  ((lookups st' = lookups st /\ requests st' = requests st)
   \/ (lookups st' = S (lookups st)
       /\ requests st' = if is_empty (LASTFM_API_KEY w) then requests st
                         else S (requests st)))
  /\ (clears st <= clears st' <= S (clears st))%nat.
Proof.
  cbv zeta. unfold lastfm_cover.
  set (st1 := if past now _ then _ else st).
  assert (H1 : lookups st1 = lookups st /\ requests st1 = requests st
               /\ (clears st <= clears st1 <= S (clears st))%nat).
  { subst st1. destruct (past now _); cbn; lia. }
  destruct H1 as (Hl & Hr & Hc). clearbody st1.
  rewrite cached_keeps_clears. split; [|exact Hc].
  destruct (memo_find (a, t) (memo st1)) as [v|] eqn:Hf.
  - rewrite (lastfm_cover_cached_hit _ _ _ _ _ Hf). cbn. left. split; assumption.
  - right. unfold _lastfm_cover_cached. rewrite Hf.
    pose proof (lastfm_cover_raw_requests w a t st1) as Hq.
    pose proof (lastfm_cover_raw_state w a t st1) as Hs. cbv zeta in Hs.
    destruct Hs as (_ & _ & _ & Hl' & _).
    destruct (_lastfm_cover w a t st1) as [v st2]. cbn in *.
    rewrite Hl', Hq, Hl, Hr. split; reflexivity.
Qed.

(** X9. Along any run of calls there is at most one lookup per call, and
    the HTTP requests sent are none without an API key and exactly one
    per lookup with one. *)
Theorem requests_follow_lookups w calls : forall st,
  let st' := snd (lastfm_calls w calls st) in
  (lookups st <= lookups st' <= lookups st + length calls)%nat
  /\ requests st' = (requests st + if is_empty (LASTFM_API_KEY w) then 0
                                   else lookups st' - lookups st)%nat.
Proof.
  induction calls as [|[[a t] now] more IH]; intros st; cbv zeta.
  - cbn. destruct (is_empty _); lia.
  - rewrite lastfm_calls_cons.
    destruct (lastfm_cover_counters w a t now st) as [Hstep _]. cbv zeta in Hstep.
    specialize (IH (snd (lastfm_cover w a t now st))). cbv zeta in IH.
    destruct IH as [Hl Hr]. rewrite Hr. cbn [length].
    destruct (is_empty (LASTFM_API_KEY w));
      destruct Hstep as [[H1 H2] | [H1 H2]]; rewrite ?H2; lia.
Qed.

(** ** Cover resolver: what a lookup can return *)

Lemma get_then_item img k t :
  py_get img k = Returns t -> truthy t = true -> py_getitem img k = Returns t.
Proof.
  destruct img; cbn [py_get py_getitem]; try discriminate.
  destruct (dict_get fields k) as [x|]; intros [= <-]; [reflexivity|discriminate].
Qed.

Lemma scan_size_truthy sz images : forall r,
  scan_size sz images = Returns (Some r) -> exists v, r = Some v /\ truthy v = true.
Proof.
  induction images as [|img more IH]; intros r; cbn [scan_size]; [discriminate|].
  destruct (py_get img "size") as [szv|e]; cbn [mbind outcome_bind]; [|discriminate].
  destruct (eq_str szv sz); cbn [mbind outcome_bind]; [|apply IH].
  destruct (py_get img "#text") as [t|e] eqn:Ht; cbn [mbind outcome_bind]; [|discriminate].
  destruct (truthy t) eqn:Htr; [|apply IH].
  rewrite (get_then_item _ _ _ Ht Htr). cbn [mbind outcome_bind].
  intros [= <-]. exists t. unfold or_none. rewrite Htr. split; reflexivity.
Qed.

Lemma scan_sizes_truthy sizes images : forall r,
  scan_sizes sizes images = Returns (Some r) -> exists v, r = Some v /\ truthy v = true.
Proof.
  induction sizes as [|sz more IH]; intros r; cbn [scan_sizes]; [discriminate|].
  destruct (scan_size sz images) as [[ret|]|e] eqn:Hs; cbn [mbind outcome_bind];
    [|apply IH|discriminate].
  intros [= <-]. exact (scan_size_truthy _ _ _ Hs).
Qed.

Lemma first_with_url_truthy images : forall v,
  first_with_url images = Returns (Some v) -> truthy v = true.
Proof.
  induction images as [|img more IH]; intros v; cbn [first_with_url]; [discriminate|].
  destruct (py_get img "#text") as [t|e] eqn:Ht; cbn [mbind outcome_bind]; [|discriminate].
  destruct (truthy t) eqn:Htr; [|apply IH].
  rewrite (get_then_item _ _ _ Ht Htr). cbn [mbind outcome_bind].
  intros [= <-]. exact Htr.
Qed.

Lemma select_image_truthy data r :
  select_image data = Returns r -> present_is_truthy r.
Proof.
  unfold select_image.
  destruct (find_images data) as [images|e]; cbn [mbind outcome_bind]; [|discriminate].
  destruct (truthy images); [|intros [= <-]; exact I].
  destruct (py_iter images) as [items|e]; cbn [mbind outcome_bind]; [|discriminate].
  destruct (scan_sizes _ items) as [[ret|]|e] eqn:Hs; cbn [mbind outcome_bind];
    [| |discriminate].
  - intros [= <-]. destruct (scan_sizes_truthy _ _ _ Hs) as (v & -> & Hv). exact Hv.
  - destruct r as [v|]; [|intros _; exact I].
    intros H. exact (first_with_url_truthy _ _ H).
Qed.

Lemma lastfm_cover_raw_truthy w a t st :
  present_is_truthy (fst (_lastfm_cover w a t st)).
Proof.
  unfold _lastfm_cover. destruct (is_empty (LASTFM_API_KEY w)); [exact I|].
  destruct (http_get w _ a t) as [data|]; [|exact I].
  destruct (select_image data) as [r|e] eqn:Hs; [|exact I].
  exact (select_image_truthy _ _ Hs).
Qed.

Lemma lastfm_cover_keeps_truthy w a t now st :
  Forall (fun e => present_is_truthy (snd e)) (memo st) ->
  present_is_truthy (fst (lastfm_cover w a t now st))
  /\ Forall (fun e => present_is_truthy (snd e)) (memo (snd (lastfm_cover w a t now st))).
Proof.
  intros Hinv. unfold lastfm_cover.
  set (st1 := if past now _ then _ else st).
  assert (H1 : Forall (fun e => present_is_truthy (snd e)) (memo st1)).
  { subst st1. destruct (past now _); [constructor|exact Hinv]. }
  clearbody st1. unfold _lastfm_cover_cached.
  destruct (memo_find (a, t) (memo st1)) as [v|] eqn:Hf.
  - pose proof (memo_find_forall present_is_truthy _ _ _ H1 Hf) as Hv.
    cbn [fst snd memo set_memo]. split; [exact Hv|].
    constructor; [exact Hv|]. apply memo_remove_forall. exact H1.
  - pose proof (lastfm_cover_raw_truthy w a t st1) as Hv.
    pose proof (lastfm_cover_raw_state w a t st1) as Hs. cbv zeta in Hs.
    destruct Hs as (_ & Hm & _).
    destruct (_lastfm_cover w a t st1) as [v st2]. cbn [fst snd memo set_memo] in *.
    split; [exact Hv|]. apply Forall_take. rewrite Hm.
    constructor; [exact Hv|exact H1].
Qed.

(** X10. Whatever the catalog answers, a cover the resolver returns is
    never an empty value: along any run of calls from the initial state
    each result is absent or true in Python's sense (not an empty string,
    zero, null, or an empty list or object). *)
Theorem returned_cover_is_never_empty w calls :
  Forall present_is_truthy (fst (lastfm_calls w calls init_state)).
Proof.
  assert (H0 : Forall (fun e => present_is_truthy (snd e)) (memo init_state))
    by constructor.
  generalize dependent init_state. induction calls as [|[[a t] now] more IH]; intros st H0.
  - constructor.
  - cbn [lastfm_calls].
    destruct (lastfm_cover_keeps_truthy w a t now st H0) as [Hr Hm].
    destruct (lastfm_cover w a t now st) as [r st1]. cbn [fst snd] in *.
    specialize (IH st1 Hm).
    destruct (lastfm_calls w more st1) as [rs st2]. cbn [fst] in *.
    constructor; assumption.
Qed.

(** X11. A response that is not an object with a [track] member (an error
    body, a list, a string, a number, null) gives absence. *)
Theorem response_without_track_gives_absence w a t st data :
  http_get w (requests st) a t = Some data ->
  (forall f, data = JObj f -> dict_get f "track" = None) ->
  fst (_lastfm_cover w a t st) = None.
Proof.
  intros Hget Hno. unfold _lastfm_cover.
  destruct (is_empty (LASTFM_API_KEY w)); [reflexivity|].
  cbn [requests count_lookup]. rewrite Hget.
  assert (H : select_image data = Returns None \/ exists e, select_image data = Raises e).
  { unfold select_image, find_images.
    destruct data as [| b | n | f | s | l | f]; cbn [py_in mbind outcome_bind]; eauto.
    - destruct (contains "track" s); cbn [py_getitem mbind outcome_bind]; eauto.
    - destruct (existsb _ l); cbn [py_getitem mbind outcome_bind]; eauto.
    - rewrite (Hno f eq_refl). cbn [mbind outcome_bind truthy]. eauto. }
  destruct H as [-> | [e ->]]; reflexivity.
Qed.

Lemma response_without_track_gives_absence_witness :
  fst (_lastfm_cover error_world "Muse" "Uprising" init_state) = None.
Proof.
  apply (response_without_track_gives_absence error_world "Muse" "Uprising" init_state
           (JObj [("error", JInt 6); ("message", JStr "Track not found")])).
  - reflexivity.
  - intros f [= <-]. reflexivity.
Defined.



(** ** Now-playing resolver *)

Lemma resolve_cover_state w now ti ar cover st :
  snd (resolve_cover w now ti ar cover st) = st
  \/ snd (resolve_cover w now ti ar cover st) = snd (lastfm_cover w ar ti now st).
Proof.
  unfold resolve_cover.
  destruct (is_empty cover && negb (is_empty ti) && negb (is_empty ar)).
  - right. destruct (lastfm_cover w ar ti now st); reflexivity.
  - destruct (negb (is_empty cover) && startswith "file://" cover); [|left; reflexivity].
    destruct (negb (path_exists w (drop 7 cover)) && negb (is_empty ti) && negb (is_empty ar));
      [|left; reflexivity].
    right. destruct (lastfm_cover w ar ti now st); reflexivity.
Qed.

Lemma poll_counters w now players : forall st,
  let res := fst (poll w now players st) in
  let st' := snd (poll w now players st) in
  (lookups st <= lookups st' <= S (lookups st))%nat
  /\ (requests st <= requests st' <= S (requests st))%nat
  /\ (clears st <= clears st' <= S (clears st))%nat
  /\ match res with
     | Returns (Playing _ _ _ _ _ _ _) => True
     | _ => st' = st
     end.
Proof.
  induction players as [|p more IH]; intros st; cbv zeta.
  - cbn. repeat split; lia.
  - cbn [poll].
    destruct (String.eqb (str_lower w (player_status w p)) "playing"); [|apply IH].
    destruct (player_metadata w p) as [[m|]|e]; [| apply IH | cbn; repeat split; lia].
    pose proof (resolve_cover_state w now (title m) (artist m) (artUrl m) st) as Hs.
    destruct (resolve_cover w now (title m) (artist m) (artUrl m) st) as [c st1].
    cbn [fst snd] in *.
    destruct Hs as [-> | ->]; [repeat split; lia|].
    destruct (lastfm_cover_counters w (artist m) (title m) now st) as [Hstep Hc].
    cbv zeta in Hstep, Hc.
    destruct (is_empty (LASTFM_API_KEY w));
      destruct Hstep as [[H1 H2] | [H1 H2]]; rewrite H1, H2; repeat split; lia.
Qed.

(** X13. One resolution makes at most one cover lookup, sends at most one
    HTTP request and clears the cache at most once; when it does not
    return the playing shape the resolver state is left as it was. *)
Theorem resolution_makes_at_most_one_lookup w now st :
  let res := fst (get_now_playing w now st) in
  let st' := snd (get_now_playing w now st) in
  (lookups st <= lookups st' <= S (lookups st))%nat
  /\ (requests st <= requests st' <= S (requests st))%nat
  /\ (clears st <= clears st' <= S (clears st))%nat
  /\ match res with
     | Returns (Playing _ _ _ _ _ _ _) => True
     | _ => st' = st
     end.
Proof. exact (poll_counters w now (list_players w) st). Qed.

(** X14. Where the poller does not raise on a listed playing player, the
    resolver returns stopped if every listed player is passed over, and
    otherwise the playing shape of the first one that is not, built from
    its trimmed metadata, with that player's identifier as the source. *)
Theorem get_now_playing_selects_first_ready w now st :
  (forall p, In p (list_players w) -> is_playing w p = true ->
             exists r, player_metadata w p = Returns r) ->
  (Forall (skipped w) (list_players w)
   /\ get_now_playing w now st = (Returns Stopped, st))
  \/ (exists pre p post m,
        list_players w = pre ++ p :: post /\ Forall (skipped w) pre
        /\ is_playing w p = true /\ player_metadata w p = Returns (Some m)
        /\ get_now_playing w now st
           = (Returns (Playing (title m) (artist m) (album m)
                               (fst (resolve_cover w now (title m) (artist m) (artUrl m) st))
                               p (position m) (length_seconds m)),
              snd (resolve_cover w now (title m) (artist m) (artUrl m) st))).
Proof.
  intros Hret. unfold get_now_playing.
  destruct (poll_selects w now (list_players w) st Hret)
    as [H | (pre & p & post & m & Hl & Hpre & Hp & Hm & Hs)]; [left; exact H|].
  right. exists pre, p, post, m. repeat split; try assumption.
  rewrite Hs, (poll_stops_at w now p post m st Hp Hm).
  pose proof (player_metadata_fields w p m Hm) as Hf. cbv zeta in Hf.
  destruct Hf as (_ & _ & _ & _ & _ & _ & Hpl & _). rewrite Hpl.
  destruct (is_empty p); reflexivity.
Qed.

Lemma get_now_playing_selects_first_ready_witness :
  fst (get_now_playing two_players_world 5 init_state) <> Returns Stopped
  /\ exists pre p post m,
       list_players two_players_world = pre ++ p :: post
       /\ Forall (skipped two_players_world) pre
       /\ is_playing two_players_world p = true
       /\ player_metadata two_players_world p = Returns (Some m)
       /\ get_now_playing two_players_world 5 init_state
          = (Returns (Playing (title m) (artist m) (album m)
                              (fst (resolve_cover two_players_world 5 (title m) (artist m)
                                      (artUrl m) init_state))
                              p (position m) (length_seconds m)),
             snd (resolve_cover two_players_world 5 (title m) (artist m) (artUrl m)
                    init_state)).
Proof.
  assert (Hne : fst (get_now_playing two_players_world 5 init_state) <> Returns Stopped)
    by (vm_compute; discriminate).
  split; [exact Hne|].
  assert (El : list_players two_players_world = ["firefox.instance1"; "spotify.instance2"])
    by (vm_compute; reflexivity).
  destruct (get_now_playing_selects_first_ready two_players_world 5 init_state)
    as [[_ Hs] | H].
  - rewrite El. intros p [<- | [<- | []]] _; eexists; vm_compute; reflexivity.
  - rewrite Hs in Hne. exfalso. apply Hne. reflexivity.
  - exact H.
Defined.

(** X15. A playing player on whose metadata the poller raises ends the
    resolution with that exception, the state untouched, whatever
    players come after it in the poll order. *)
Theorem raising_player_aborts_resolution w now pre p post e st :
  list_players w = pre ++ p :: post ->
  Forall (skipped w) pre -> is_playing w p = true -> player_metadata w p = Raises e ->
  get_now_playing w now st = (Raises e, st).
Proof.
  intros Hl Hpre Hp He. unfold get_now_playing.
  rewrite Hl, poll_passes by exact Hpre. exact (poll_raises w now p post e st Hp He).
Qed.

Lemma raising_player_aborts_resolution_witness :
  fst (poll abort_world 5 ["mpv"] init_state)
  = Returns (Playing "T" "A" "" (JStr "") "mpv" (FFin 0) (FFin 0))
  /\ get_now_playing abort_world 5 init_state = (Raises OverflowError, init_state).
Proof.
  split; [vm_compute; reflexivity|].
  apply (raising_player_aborts_resolution abort_world 5 [] "vlc" ["mpv"]).
  - vm_compute. reflexivity.
  - constructor.
  - vm_compute. reflexivity.
  - vm_compute. reflexivity.
Defined.

(** ** Cover file endpoint *)

Lemma startswith_split pre : forall s,
  startswith pre s = true -> s = pre +:+ drop (String.length pre) s.
Proof.
  induction pre as [|a pre IH]; intros s; [reflexivity|].
  destruct s as [|b s]; cbn [startswith]; [discriminate|].
  destruct (Ascii.eqb_spec a b) as [->|]; [|discriminate].
  intros H. cbn [String.length drop].
  change (String b s = String b (pre +:+ drop (String.length pre) s)).
  f_equal. exact (IH s H).
Qed.

Lemma startswith_nonempty pre s :
  pre <> "" -> startswith pre s = true -> is_empty s = false.
Proof. destruct pre, s; cbn; congruence. Qed.

Lemma startswith_app pre s : startswith pre (pre +:+ s) = true.
Proof.
  induction pre as [|a pre IH]; [reflexivity|].
  change (String a pre +:+ s) with (String a (pre +:+ s)).
  cbn [startswith]. rewrite Ascii.eqb_refl. exact IH.
Qed.

Lemma drop_app pre s : drop (String.length pre) (pre +:+ s) = s.
Proof.
  induction pre as [|a pre IH]; [reflexivity|].
  change (String a pre +:+ s) with (String a (pre +:+ s)). exact IH.
Qed.

Lemma guess_mimetype_values w path :
  guess_mimetype w path = "image/png" \/ guess_mimetype w path = "image/gif"
  \/ guess_mimetype w path = "image/jpeg".
Proof.
  unfold guess_mimetype.
  destruct (endswith ".png" _); [auto|]. destruct (endswith ".gif" _); auto.
Qed.

(** X16. A [file://] in front of the path argument makes no difference to
    the answer, for a non-empty path that does not itself start with
    [file://]. *)
Theorem api_cover_ignores_file_prefix w send_error p :
  p <> "" -> startswith "file://" p = false ->
  api_cover w send_error (Some ("file://" +:+ p)) = api_cover w send_error (Some p).
Proof.
  intros Hp Hs. apply is_empty_false in Hp. unfold api_cover, default, from_option, id.
  rewrite startswith_app.
  rewrite (startswith_nonempty "file://" _ ltac:(discriminate) (startswith_app _ p)).
  change 7%nat with (String.length "file://"). rewrite drop_app, Hp, Hs. reflexivity.
Qed.

Lemma api_cover_ignores_file_prefix_witness :
  api_cover local_cover_world (fun _ => None) (Some "file:///tmp/cover.PNG")
  = SendFile "/tmp/cover.PNG" "image/png"
  /\ api_cover local_cover_world (fun _ => None) (Some "/tmp/cover.PNG")
     = SendFile "/tmp/cover.PNG" "image/png".
Proof.
  assert (H : api_cover local_cover_world (fun _ => None) (Some "/tmp/cover.PNG")
              = SendFile "/tmp/cover.PNG" "image/png") by (vm_compute; reflexivity).
  split; [|exact H].
  rewrite <- H.
  apply (api_cover_ignores_file_prefix local_cover_world (fun _ => None) "/tmp/cover.PNG");
    [discriminate|reflexivity].
Defined.

(** X17. A file is sent only if it is on disk and [send_file] succeeds on
    it, and it is the path argument itself or the argument without its
    leading [file://]; its mimetype is one of image/png, image/gif and
    image/jpeg. *)
Theorem api_cover_sends_only_existing_argument w send_error arg path mimetype :
  api_cover w send_error arg = SendFile path mimetype ->
  path_exists w path = true
  /\ send_error path = None
  /\ (arg = Some path \/ arg = Some ("file://" +:+ path))
  /\ mimetype = guess_mimetype w path
  /\ (mimetype = "image/png" \/ mimetype = "image/gif" \/ mimetype = "image/jpeg").
Proof.
  unfold api_cover. destruct arg as [c|]; [|discriminate].
  unfold default, from_option, id.
  destruct (is_empty c); [discriminate|].
  destruct (startswith "file://" c) eqn:Hs.
  - destruct (path_exists w (drop 7 c)) eqn:He; cbn [negb]; [|discriminate].
    destruct (send_error (drop 7 c)) eqn:Hse; [discriminate|].
    intros [= <- <-]. repeat split; auto using guess_mimetype_values.
    right. f_equal. exact (startswith_split "file://" c Hs).
  - destruct (path_exists w c) eqn:He; cbn [negb]; [|discriminate].
    destruct (send_error c) eqn:Hse; [discriminate|].
    intros [= <- <-]. repeat split; auto using guess_mimetype_values.
Qed.

Lemma api_cover_sends_only_existing_argument_witness :
  path_exists local_cover_world "/tmp/cover.PNG" = true
  /\ "image/png" = guess_mimetype local_cover_world "/tmp/cover.PNG".
Proof.
  destruct (api_cover_sends_only_existing_argument local_cover_world (fun _ => None)
              (Some "file:///tmp/cover.PNG") "/tmp/cover.PNG" "image/png"
              ltac:(vm_compute; reflexivity)) as (H1 & _ & _ & H2 & _).
  split; assumption.
Defined.

(** X18. A local cover reference that the resolver keeps because its file
    is on disk can be fetched through the endpoint: the resolver returns
    the reference unchanged without a lookup, and the endpoint, given
    that reference, sends the file behind it (or answers 500 if sending
    fails), never 400 or 404. *)
Theorem kept_local_cover_is_served w send_error now p more m st :
  is_playing w p = true -> player_metadata w p = Returns (Some m) ->
  startswith "file://" (artUrl m) = true ->
  path_exists w (drop 7 (artUrl m)) = true ->
  poll w now (p :: more) st
  = (Returns (Playing (title m) (artist m) (album m) (JStr (artUrl m))
                      (if is_empty (player m) then p else player m)
                      (position m) (length_seconds m)), st)
  /\ api_cover w send_error (Some (artUrl m))
     = match send_error (drop 7 (artUrl m)) with
       | None => SendFile (drop 7 (artUrl m)) (guess_mimetype w (drop 7 (artUrl m)))
       | Some e => Body ("Error serving file: " +:+ e) 500
       end.
Proof.
  intros Hp Hm Hs He.
  pose proof (startswith_nonempty "file://" _ ltac:(discriminate) Hs) as Hne.
  split.
  - rewrite (poll_stops_at w now p more m st Hp Hm). unfold resolve_cover.
    rewrite Hne, Hs, He. reflexivity.
  - unfold api_cover, default, from_option, id. rewrite Hne, Hs, He. reflexivity.
Qed.

Lemma kept_local_cover_is_served_witness :
  fst (poll local_cover_world 5 ["spotify"] init_state)
  = Returns (Playing "A" "B" "" (JStr "file:///tmp/cover.PNG") "spotify" (FFin 0) (FFin 0))
  /\ api_cover local_cover_world (fun _ => None) (Some "file:///tmp/cover.PNG")
     = SendFile "/tmp/cover.PNG" "image/png".
Proof.
  destruct (kept_local_cover_is_served local_cover_world (fun _ => None) 5 "spotify" []
              {| title := "A"; artist := "B"; album := ""; artUrl := "file:///tmp/cover.PNG";
                 player := "spotify"; position := FFin 0; length_seconds := FFin 0 |}
              init_state
              ltac:(vm_compute; reflexivity) ltac:(vm_compute; reflexivity)
              ltac:(reflexivity) ltac:(reflexivity)) as [H1 H2].
  cbn [artUrl] in H2. split.
  - rewrite H1. reflexivity.
  - rewrite H2. reflexivity.
Defined.

(** X19. A local cover reference whose file is gone is still handed out
    when the title or the artist is empty, and the endpoint answers it
    with 404. *)
Theorem dead_cover_without_tags_answers_404 w send_error now p more m st :
  is_playing w p = true -> player_metadata w p = Returns (Some m) ->
  startswith "file://" (artUrl m) = true ->
  path_exists w (drop 7 (artUrl m)) = false ->
  title m = "" \/ artist m = "" ->
  poll w now (p :: more) st
  = (Returns (Playing (title m) (artist m) (album m) (JStr (artUrl m))
                      (if is_empty (player m) then p else player m)
                      (position m) (length_seconds m)), st)
  /\ api_cover w send_error (Some (artUrl m)) = Body "File not found" 404.
Proof.
  intros Hp Hm Hs He Htags.
  pose proof (startswith_nonempty "file://" _ ltac:(discriminate) Hs) as Hne.
  split.
  - rewrite (poll_stops_at w now p more m st Hp Hm). unfold resolve_cover.
    rewrite Hne, Hs, He. cbn [andb negb].
    destruct Htags as [-> | ->]; cbn [is_empty negb andb];
      rewrite ?andb_false_r; reflexivity.
  - unfold api_cover, default, from_option, id. rewrite Hne, Hs, He. reflexivity.
Qed.

Lemma dead_cover_without_tags_answers_404_witness :
  fst (poll untagged_world 5 ["spotify"] init_state)
  = Returns (Playing "A" "" "" (JStr "file:///tmp/gone.jpg") "spotify" (FFin 0) (FFin 0))
  /\ api_cover untagged_world (fun _ => None) (Some "file:///tmp/gone.jpg")
     = Body "File not found" 404.
Proof.
  destruct (dead_cover_without_tags_answers_404 untagged_world (fun _ => None) 5 "spotify" []
              {| title := "A"; artist := ""; album := ""; artUrl := "file:///tmp/gone.jpg";
                 player := "spotify"; position := FFin 0; length_seconds := FFin 0 |}
              init_state
              ltac:(vm_compute; reflexivity) ltac:(vm_compute; reflexivity)
              ltac:(reflexivity) ltac:(reflexivity) ltac:(right; reflexivity)) as [H1 H2].
  cbn [artUrl] in H2. split.
  - rewrite H1. reflexivity.
  - rewrite H2. reflexivity.
Defined.

(** ** How the parts compose *)

(** X20. When the listing command fails or prints only blanks, the answer
    is stopped and the resolver state is untouched, whatever the other
    commands would print. *)
Theorem no_listing_means_stopped w now st :
  match playerctl w ["playerctl"; "-l"] with
  | Some out => strip out = ""
  | None => True
  end ->
  list_players w = [] /\ get_now_playing w now st = (Returns Stopped, st).
Proof.
  intros H.
  assert (E : run w ["playerctl"; "-l"] = "").
  { unfold run. destruct (playerctl w ["playerctl"; "-l"]); [exact H|reflexivity]. }
  assert (El : list_players w = []) by (unfold list_players; rewrite E; reflexivity).
  split; [exact El|]. exact (get_now_playing_no_players w now st El).
Qed.

Lemma no_listing_means_stopped_witness :
  get_now_playing answering_world 5 init_state = (Returns Stopped, init_state).
Proof.
  apply (no_listing_means_stopped answering_world 5 init_state). exact I.
Defined.

(** X21. Without an API key, in a state whose memo holds only absent
    results (as every state reached from the initial one does), a
    playing track with title and artist but no cover reference is
    answered with the empty cover, and no HTTP request is sent. *)
Theorem no_credential_cover_is_empty w now p more m st :
  LASTFM_API_KEY w = "" ->
  Forall (fun e => snd e = None) (memo st) ->
  is_playing w p = true -> player_metadata w p = Returns (Some m) ->
  artUrl m = "" ->
  exists st',
    poll w now (p :: more) st
    = (Returns (Playing (title m) (artist m) (album m) (JStr "")
                        (if is_empty (player m) then p else player m)
                        (position m) (length_seconds m)), st')
    /\ requests st' = requests st.
Proof.
  intros Hkey Hinv Hp Hm Hc.
  rewrite (poll_stops_at w now p more m st Hp Hm). unfold resolve_cover. rewrite Hc.
  cbn [is_empty andb negb startswith].
  destruct (negb (is_empty (title m)) && negb (is_empty (artist m))).
  - destruct (lastfm_cover_no_key_step w (artist m) (title m) now st Hkey Hinv)
      as (Hr & _ & Hq).
    destruct (lastfm_cover w (artist m) (title m) now st) as [r st']. cbn [fst snd] in *.
    subst r. exists st'. split; [reflexivity|exact Hq].
  - exists st. split; reflexivity.
Qed.

Lemma no_credential_cover_is_empty_witness :
  exists st',
    poll (solo_world "spotify" "A|B|||" "") 5 ["spotify"] init_state
    = (Returns (Playing "A" "B" "" (JStr "") "spotify" (FFin 0) (FFin 0)), st')
    /\ requests st' = 0%nat.
Proof.
  destruct (no_credential_cover_is_empty (solo_world "spotify" "A|B|||" "") 5 "spotify" []
              {| title := "A"; artist := "B"; album := ""; artUrl := "";
                 player := "spotify"; position := FFin 0; length_seconds := FFin 0 |}
              init_state eq_refl ltac:(constructor)
              ltac:(vm_compute; reflexivity) ltac:(vm_compute; reflexivity) eq_refl)
    as (st' & H1 & H2).
  exists st'. split; [exact H1|exact H2].
Defined.

(** X22. At a clock reading after the epoch, a call leaves its key in the
    TTL map with an expiry that is not behind the clock. *)
Theorem lastfm_cover_registers_key w a t now st :
  (0 < now)%Q ->
  exists e, ttl (snd (lastfm_cover w a t now st)) !! cache_key w a t = Some e
            /\ (now <= e)%Q.
Proof.
  intros Hnow.
  destruct (past now (default 0%Q (ttl st !! cache_key w a t))) eqn:He.
  - destruct (lastfm_cover_expired w a t now st He) as (_ & _ & Ht & _).
    cbv zeta in Ht. rewrite Ht, lookup_insert_eq. eexists. split; [reflexivity|lra].
  - assert (Ht : ttl (snd (lastfm_cover w a t now st)) = ttl st).
    { rewrite (lastfm_cover_alive w a t now st He).
      destruct (memo_find (a, t) (memo st)) as [v|] eqn:Hf.
      - rewrite (lastfm_cover_cached_hit _ _ _ _ _ Hf). reflexivity.
      - apply (lastfm_cover_cached_miss w a t st Hf). }
    rewrite Ht. apply past_false in He.
    destruct (ttl st !! cache_key w a t) as [e|]; unfold default, id in He; cbn in He.
    + exists e. split; [reflexivity|exact He].
    + lra.
Qed.

Lemma lastfm_cover_registers_key_witness :
  exists e, ttl (snd (lastfm_cover answering_world "ÉDITH" "X" 5 init_state))
              !! "édith|x" = Some e
            /\ (5 <= e)%Q.
Proof.
  change "édith|x" with (cache_key answering_world "ÉDITH" "X").
  apply (lastfm_cover_registers_key answering_world "ÉDITH" "X" 5 init_state).
  reflexivity.
Defined.

(** ** Texts beyond ASCII

    Runs on names and numbers written with characters beyond ASCII. *)

(** [strip] removes the no-break space and the em space U+2003;
    [splitlines] breaks at the next-line character U+0085. *)
Example strip_removes_unicode_blanks :
  strip (NBSP +:+ "Muse" +:+ String "226" (String "128" (String "131" ""))) = "Muse"
  /\ splitlines ("a" +:+ String "194" (String "133" "b")) = ["a"; "b"].
Proof. vm_compute. split; reflexivity. Qed.

(** An accented spelling in capitals has the key of the one in small
    letters: called within the hour of the latter, it clears nothing and
    makes its own lookup. *)
Example accented_variant_shares_expiry :
  let w := answering_world in
  let st := snd (lastfm_cover w "édith" "x" 1 init_state) in
  let st' := snd (lastfm_cover w "ÉDITH" "X" 2 st) in
  cache_key w "ÉDITH" "X" = "édith|x"
  /\ ttl st !! "édith|x" = Some 3601%Q
  /\ clears st = 1%nat /\ clears st' = 1%nat
  /\ lookups st = 1%nat /\ lookups st' = 2%nat.
Proof. vm_compute. repeat split. Qed.

(** [int] and [float] skip a no-break space in front of the sign: the
    negative length and position behind it are passed through. *)
Example readings_behind_unicode_blank :
  let w := solo_world "spotify" ("t|a|b|c|" +:+ NBSP +:+ "-1000000") "-2.5" in
  py_int (todecimal w) (NBSP +:+ "-1000000") = Returns (-1000000)%Z
  /\ py_float (todecimal w) (NBSP +:+ "-2.5") = Returns (FFin (-(25 # 10)))
  /\ leading_minus w (length_field (metadata_line w "spotify")) = true
  /\ exists m, player_metadata w "spotify" = Returns (Some m)
               /\ length_seconds m = FFin (-1000000 # 1000000)
               /\ nonnegb (position m) = false.
Proof.
  split; [vm_compute; reflexivity|]. split; [vm_compute; reflexivity|].
  split; [vm_compute; reflexivity|]. eexists. vm_compute. repeat split.
Qed.

(** A length field of Arabic-Indic digits is read as the integer it
    writes: [10^400] makes the poller raise in this script too. *)
Example arabic_length_raises :
  py_int unicode14_decimal (ARABIC_ONE +:+ copies 400 ARABIC_ZERO) = Returns (10 ^ 400)%Z
  /\ player_metadata (solo_world "spotify" arabic_length_line "1.5") "spotify"
     = Raises OverflowError.
Proof. vm_compute. split; reflexivity. Qed.
